(** * Report-table view logic and storage chart

    A shallow embedding of the three client-side scripts of the repository:
    - the table script that mirrors clicks into the query string
      (referred to below as the URL-based implementation, module [Url]);
    - the table script that mirrors clicks into the fields of the form
      [#qform] (the form-based implementation, module [Form]);
    - [static/storage.js], which hands three global arrays to the charting
      library (module [Storage]).

    Strings are sequences of bytes: a JavaScript string is represented by its
    UTF-8 encoding, so well-formed strings only.  The characters the scripts
    test for ([f_], [s_], [limit], [&], [=], ...) are ASCII, for which the
    two views coincide. *)

From Stdlib Require Import String Ascii List NArith ZArith QArith Lia.
From stdpp Require Import base list strings option.

(** ** Values read from the DOM

    [getAttribute] returns [null] when the attribute is absent; [None]
    stands for [null]. *)

(** [a || ""] *)
Definition or_empty (a : option string) : string := default "" a.

(** [!a] for a value that is a string or [null] *)
Definition falsy (a : option string) : bool :=
  match a with
  | None => true
  | Some s => (s =? "")%string
  end.

(** [a === lit] for a string literal [lit] *)
Definition strict_eq (a : option string) (lit : string) : bool :=
  match a with
  | None => false
  | Some s => (s =? lit)%string
  end.

(** Conversion of a string-or-null to a string, as a template literal does. *)
Definition to_str (a : option string) : string := default "null" a.

(** [s.startsWith(p)] *)
Fixpoint startsWith (s p : string) : bool :=
  match p with
  | EmptyString => true
  | String a p' =>
      match s with
      | EmptyString => false
      | String b s' => Ascii.eqb a b && startsWith s' p'
      end
  end.

(** The successor of a column's sort state; both table scripts compute
    [current === "" ? "asc" : current === "asc" ? "desc" : ""]. *)
Definition next (current : string) : string :=
  if (current =? "")%string then "asc"
  else if (current =? "asc")%string then "desc"
  else "".

(** ** URLSearchParams

    The query of a URL is represented by the list of name-value pairs its
    parsing yields, in order and with duplicates.  The three methods follow
    the URL standard. *)

Definition sp_keys (l : list (string * string)) : list string := l.*1.

(** [delete(name)]: remove every pair whose name is [name]. *)
Definition sp_delete (name : string) (l : list (string * string))
  : list (string * string) :=
  filter (λ p, p.1 ≠ name) l.

(** [set(name, value)]: the first pair named [name] gets [value] and the
    other pairs of that name are removed; without such a pair, one is
    appended. *)
Fixpoint sp_set (name value : string) (l : list (string * string))
  : list (string * string) :=
  match l with
  | [] => [(name, value)]
  | p :: l' =>
      if decide (p.1 = name) then (name, value) :: sp_delete name l'
      else p :: sp_set name value l'
  end.

(** [get(name)]: the value of the first pair named [name]. *)
Definition sp_get (name : string) (l : list (string * string)) : option string :=
  snd <$> (snd <$> list_find (λ p, p.1 = name) l).

Record URL := mkURL {
  origin : string;
  pathname : string;
  searchParams : list (string * string);
  hash : string
}.

Definition with_searchParams (url : URL) (sp : list (string * string)) : URL :=
  {| origin := origin url; pathname := pathname url;
     searchParams := sp; hash := hash url |}.

(** ** The URL-based table script *)

Module Url.

(** A header cell selected by [th[data-col]]. *)
Record th := mk_th { data_col : string; data_sort : option string }.

Record chip := mk_chip { data_kind : option string; chip_col : option string }.

(** What a handler leaves behind: it returned early, or it assigned the
    serialisation of [url] to [window.location.href]. *)
Inductive outcome :=
| Returned
| Navigated (url : URL).

(** [loc] is [new URL(window.location.href)]. *)
Definition setParam (loc : URL) (name value : string) : outcome :=
  if (value =? "")%string
  then Navigated (with_searchParams loc (sp_delete name (searchParams loc)))
  else Navigated (with_searchParams loc (sp_set name value (searchParams loc))).

Definition clearAll (loc : URL) : outcome :=
  let sp :=
    fold_left
      (λ acc k,
         if startsWith k "f_" || startsWith k "s_" || (k =? "limit")%string
         then sp_delete k acc else acc)
      (sp_keys (searchParams loc)) (searchParams loc) in
  Navigated (with_searchParams loc sp).

Definition clearSorts (loc : URL) : outcome :=
  let sp :=
    fold_left
      (λ acc k, if startsWith k "s_" then sp_delete k acc else acc)
      (sp_keys (searchParams loc)) (searchParams loc) in
  Navigated (with_searchParams loc sp).

(** Click inside the header cell [t]; [actionEl] tells whether
    [e.target.closest("[data-action='sort']")] found an element. *)
Definition th_click (loc : URL) (t : th) (actionEl : bool) : outcome :=
  if negb actionEl then Returned
  else
    let col := data_col t in
    let current := or_empty (data_sort t) in
    let next := next current in
    Navigated (with_searchParams loc
                 (sp_set ("s_" +:+ col) next (searchParams loc))).

(** Click inside [#chips]; [x] tells whether [e.target.closest(".x")] found
    an element, [c] is the result of [e.target.closest(".chip")]. *)
Definition chips_click (loc : URL) (x : bool) (c : option chip) : outcome :=
  if negb x then Returned
  else
    match c with
    | None => Returned
    | Some chip =>
        let kind := data_kind chip in
        let col := chip_col chip in
        let sp := searchParams loc in
        let sp :=
          if strict_eq kind "filter" then sp_delete ("f_" +:+ to_str col) sp
          else sp in
        let sp :=
          if strict_eq kind "sort" then sp_delete ("s_" +:+ to_str col) sp
          else sp in
        Navigated (with_searchParams loc sp)
    end.

Inductive click :=
| ClearBtn
| ClearSortsBtn
| Th (t : th) (actionEl : bool)
| Chips (x : bool) (c : option chip).

(** The script as a whole: without [#qform] no listener is installed. *)
Definition on_click (qform : bool) (loc : URL) (ev : click) : outcome :=
  if negb qform then Returned
  else
    match ev with
    | ClearBtn => clearAll loc
    | ClearSortsBtn => clearSorts loc
    | Th t actionEl => th_click loc t actionEl
    | Chips x c => chips_click loc x c
    end.

End Url.

(** ** Percent-encoding and query parsing

    [encodeURIComponent] (ECMAScript) on the UTF-8 bytes of its argument:
    the unreserved ASCII characters are kept, every other byte becomes
    [%XX] with upper-case hexadecimal digits. *)

Definition is_alnum (c : ascii) : bool :=
  let n := N_of_ascii c in
  ((48 <=? n) && (n <=? 57) || (65 <=? n) && (n <=? 90)
   || (97 <=? n) && (n <=? 122))%N.

Definition uri_unreserved (c : ascii) : bool :=
  is_alnum c || existsb (Ascii.eqb c) (list_ascii_of_string "-_.!~*'()").

Definition hex_digit (n : N) : ascii :=
  if (n <? 10)%N then ascii_of_N (48 + n) else ascii_of_N (55 + n).

Definition percent_byte (c : ascii) : string :=
  let n := N_of_ascii c in
  String "%" (String (hex_digit (n / 16)) (String (hex_digit (n mod 16)) "")).

Fixpoint encodeURIComponent (s : string) : string :=
  match s with
  | EmptyString => ""
  | String c s' =>
      if uri_unreserved c then String c (encodeURIComponent s')
      else percent_byte c +:+ encodeURIComponent s'
  end.

(** The parsing side, as the URL standard has it: percent-decoding and the
    [application/x-www-form-urlencoded] parser. *)

Definition hex_value (c : ascii) : option N :=
  let n := N_of_ascii c in
  if ((48 <=? n) && (n <=? 57))%N then Some (n - 48)%N
  else if ((65 <=? n) && (n <=? 70))%N then Some (n - 55)%N
  else if ((97 <=? n) && (n <=? 102))%N then Some (n - 87)%N
  else None.

Fixpoint percent_decode (s : string) : string :=
  match s with
  | EmptyString => ""
  | String c s' =>
      if Ascii.eqb c "%" then
        match s' with
        | String h (String l rest) =>
            match hex_value h, hex_value l with
            | Some a, Some b =>
                String (ascii_of_N (16 * a + b)) (percent_decode rest)
            | _, _ => String c (percent_decode s')
            end
        | _ => String c (percent_decode s')
        end
      else String c (percent_decode s')
  end.

Fixpoint plus_to_space (s : string) : string :=
  match s with
  | EmptyString => ""
  | String c s' =>
      String (if Ascii.eqb c "+" then " "%char else c) (plus_to_space s')
  end.

(** [break_at sep s]: what precedes the first [sep] in [s], and what
    follows it when [sep] occurs. *)
Fixpoint break_at (sep : ascii) (s : string) : string * option string :=
  match s with
  | EmptyString => ("", None)
  | String c s' =>
      if Ascii.eqb c sep then ("", Some s')
      else let '(before, after) := break_at sep s' in (String c before, after)
  end.

Fixpoint split_on (sep : ascii) (s : string) : list string :=
  match s with
  | EmptyString => [""]
  | String c s' =>
      if Ascii.eqb c sep then "" :: split_on sep s'
      else
        match split_on sep s' with
        | [] => [String c ""]
        | w :: ws => String c w :: ws
        end
  end.

Definition parse_pair (seg : string) : string * string :=
  let '(n, v) := break_at "=" seg in
  (percent_decode (plus_to_space n),
   percent_decode (plus_to_space (default "" v))).

Definition parse_query (q : string) : list (string * string) :=
  parse_pair <$> filter (λ seg, seg ≠ "") (split_on "&" q).

(** The query of the URL a reference [href] resolves to: the fragment is cut
    off at the first [#], the query starts after the first [?] of what is
    left ([""] when there is none). *)
Definition query_of_href (href : string) : string :=
  default "" (break_at "?" (break_at "#" href).1).2.

(** A [pathname] never contains [?] or [#]: the URL parser ends the path
    there. *)
Fixpoint no_char (c : ascii) (s : string) : bool :=
  match s with
  | EmptyString => true
  | String d s' => negb (Ascii.eqb d c) && no_char c s'
  end.

Definition path_ok (p : string) : bool := no_char "?" p && no_char "#" p.

(** ** The form-based table script *)

Module Form.

(** An [input] element of the document.  [hidden] tells whether it matches
    [[type="hidden"]]; [in_form] whether it is a descendant of [#qform];
    [in_th] names the header cell it lies in, if any.  The document's
    inputs are listed in document order, so [querySelector] is the first
    match in the list. *)
Record input := mk_input {
  name : option string;
  hidden : bool;
  value : string;
  in_form : bool;
  in_th : option nat
}.

Definition set_value (v : string) (i : input) : input :=
  {| name := name i; hidden := hidden i; value := v;
     in_form := in_form i; in_th := in_th i |}.

(** A header cell selected by [th[data-col]]; [th_id] identifies it. *)
Record th := mk_th { th_id : nat; data_col : string; data_sort : option string }.

Record chip := mk_chip { chip_col : option string; data_kind : option string }.

(** The script splices [col] between double quotes into a selector.  The
    model covers the values that stay inside the quoted string and hold no
    escape: no double quote (34), backslash (92), line feed (10), form feed
    (12) or carriage return (13). *)
Definition css_plain (s : string) : bool :=
  no_char "034" s && no_char "092" s && no_char "010" s && no_char "012" s
  && no_char "013" s.

(** The string that a quoted CSS string written as such an [s] denotes: [s]
    itself, except that the preprocessing of CSS input turns every U+0000
    into U+FFFD (the bytes 239, 191, 189 in UTF-8). *)
Fixpoint css_string (s : string) : string :=
  match s with
  | EmptyString => ""
  | String c s' =>
      if Ascii.eqb c "000"
      then String "239" (String "191" (String "189" (css_string s')))
      else String c (css_string s')
  end.

(** What a handler triggers before it returns. *)
Inductive signal :=
| NoSignal
| Href (target : string)
| Submit.

(** The selectors of the script, as predicates on inputs:
    [form.querySelector('input[name="limit"]')],
    [form.querySelectorAll('input[type="hidden"][name^="s_"]')],
    [th.querySelector('input[type="hidden"][name="s_<col>"]')],
    [form.querySelector('input[name="f_<col>"]')] and
    [form.querySelector('input[type="hidden"][name="s_<col>"]')].  In the
    last three the name asked for is the one the quoted string denotes,
    [css_string col] after the prefix. *)
Definition limit_selector (i : input) : Prop :=
  in_form i = true ∧ name i = Some "limit".

Definition sorts_selector (h : input) : bool :=
  in_form h && hidden h
  && match name h with
     | Some n => startsWith n "s_"
     | None => false
     end.

Definition th_sort_selector (t : th) (i : input) : Prop :=
  in_th i = Some (th_id t) ∧ hidden i = true
  ∧ name i = Some ("s_" +:+ css_string (data_col t)).

Definition filter_selector (col : string) (i : input) : Prop :=
  in_form i = true ∧ name i = Some ("f_" +:+ css_string col).

Definition sort_selector (col : string) (i : input) : Prop :=
  in_form i = true ∧ hidden i = true ∧ name i = Some ("s_" +:+ css_string col).

#[global] Instance limit_selector_dec i : Decision (limit_selector i).
Proof. unfold limit_selector. apply _. Defined.

#[global] Instance th_sort_selector_dec t i : Decision (th_sort_selector t i).
Proof. unfold th_sort_selector. apply _. Defined.

#[global] Instance filter_selector_dec col i : Decision (filter_selector col i).
Proof. unfold filter_selector. apply _. Defined.

#[global] Instance sort_selector_dec col i : Decision (sort_selector col i).
Proof. unfold sort_selector. apply _. Defined.

(** [querySelector]: the first matching input with its position, or [null]. *)
Definition querySelector (sel : input → Prop) `{!∀ i, Decision (sel i)}
    (inputs : list input) : option (nat * input) :=
  list_find sel inputs.

(** [if (el) el.value = v] *)
Definition assign_value (el : option (nat * input)) (v : string)
    (inputs : list input) : list input :=
  match el with
  | Some (k, h) => <[k := set_value v h]> inputs
  | None => inputs
  end.

Definition clearBtn_click (pathname : string) (inputs : list input) : signal :=
  let limitInput := querySelector limit_selector inputs in
  let limit :=
    match limitInput with
    | Some (_, i) => value i
    | None => "100"
    end in
  Href (pathname +:+ "?limit=" +:+ encodeURIComponent limit +:+ "&format=html").

Definition clearSortsBtn_click (inputs : list input) : list input * signal :=
  ((λ h, if sorts_selector h then set_value "" h else h) <$> inputs, Submit).

(** Click on a sort control inside the header cell [t]. *)
Definition sort_click (inputs : list input) (t : th)
  : option (list input * signal) :=
  let col := data_col t in
  let current := or_empty (data_sort t) in
  let next := next current in
  if css_plain col then
    let hid := querySelector (th_sort_selector t) inputs in
    Some (assign_value hid next inputs, Submit)
  else None.

(** Click on the remove control of the chip [c]. *)
Definition chip_x_click (inputs : list input) (c : chip)
  : option (list input * signal) :=
  if falsy (chip_col c) || falsy (data_kind c) then Some (inputs, NoSignal)
  else
    let col := or_empty (chip_col c) in
    let kind := data_kind c in
    if strict_eq kind "filter" then
      if css_plain col then
        let inp := querySelector (filter_selector col) inputs in
        Some (assign_value inp "" inputs, Submit)
      else None
    else if strict_eq kind "sort" then
      if css_plain col then
        let hid := querySelector (sort_selector col) inputs in
        Some (assign_value hid "" inputs, Submit)
      else None
    else Some (inputs, Submit).

Inductive click :=
| ClearBtn
| ClearSortsBtn
| Sort (t : th)
| ChipX (c : chip).

(** The script as a whole: without [#qform] no listener is installed.  The
    result is [None] when a selector falls outside the model. *)
Definition on_click (qform : bool) (pathname : string) (inputs : list input)
    (ev : click) : option (list input * signal) :=
  if negb qform then Some (inputs, NoSignal)
  else
    match ev with
    | ClearBtn => Some (inputs, clearBtn_click pathname inputs)
    | ClearSortsBtn => Some (clearSortsBtn_click inputs)
    | Sort t => sort_click inputs t
    | ChipX c => chip_x_click inputs c
    end.

(** The fields of the form: name and value of each named input of
    [#qform], in document order. *)
Definition form_fields (inputs : list input) : list (string * string) :=
  omap (λ i, if in_form i then (λ n, (n, value i)) <$> name i else None) inputs.

End Form.

(** ** Repeated sort clicks *)

(** Modelled from the spec: the server code that re-renders the table is not
    under src/.  Per the spec the script mirrors a click into the
    query-string or form state and the server re-renders the table from it,
    so the header cell of the reloaded page carries as [data-sort] the value
    the click wrote under [s_<col>]; [n] clicks on the same column then apply
    [next] [n] times to the column's sort state. *)
Definition sort_after (n : nat) (s : string) : string := Nat.iter n next s.

(** The states a column passes through strictly between the first and the
    [n]-th click. *)
Definition intermediate (n : nat) (s : string) : list string :=
  (λ k, sort_after k s) <$> seq 1 (n - 1).

Definition in_cycle (s : string) : Prop := s = "" ∨ s = "asc" ∨ s = "desc".

(** The reading of the spec's non-goal "there is no state machine" on the
    sort state: whenever [n] clicks on a column restore its starting state
    for the first time, the column passed through at most one distinct state
    in between. *)
Definition no_sort_cycle : Prop :=
  ∀ s n, 0 < n → sort_after n s = s →
    (∀ k, 0 < k < n → sort_after k s ≠ s) →
    ∀ a b, a ∈ intermediate n s → b ∈ intermediate n s → a = b.

(** ** static/storage.js *)

Module Storage.

Section Chart.

(** The element types of the label array and of the two percentage arrays,
    and the type of DOM elements. *)
Variables (lbl num element : Type).

(** A global that holds an array or was never assigned. *)
Inductive global (A : Type) :=
| undefined
| array (xs : list A).
Arguments undefined {A}.
Arguments array {A} xs.

(** [v || []]: an array, even an empty one, is truthy. *)
Definition or_array {A} (v : global A) : global A :=
  match v with
  | undefined => array []
  | array xs => array xs
  end.

(** [v.length]; reading a property of [undefined] raises a TypeError
    ([None]). *)
Definition length_of {A} (v : global A) : option nat :=
  match v with
  | undefined => None
  | array xs => Some (length xs)
  end.

(** The elements a chart reads from an array. *)
Definition items {A} (v : global A) : list A :=
  match v with
  | undefined => []
  | array xs => xs
  end.

Record dataset := mk_dataset {
  label : string;
  ds_data : global num;
  borderWidth : Z;
  pointRadius : Z;
  tension : Q
}.

Record chart_data := mk_chart_data {
  labels : global lbl;
  datasets : list dataset
}.

(** The configuration handed to [new Chart].  Its [options] object (display
    settings, axis titles and the tooltip formatter) is left out. *)
Record config := mk_config {
  type : string;
  data : chart_data
}.

(** How the script ends: with an exception, by an early [return], or after
    [new Chart(canvas, cfg)]. *)
Inductive completion :=
| Threw
| Returned
| Rendered (canvas : element) (cfg : config).

(** [usageChart] is [document.getElementById("usageChart")]. *)
Definition main (usageChart : option element)
    (STORAGE_LABELS : global lbl)
    (STORAGE_ROOT_PCT STORAGE_VOL_PCT : global num) : completion :=
  let labels := or_array STORAGE_LABELS in
  let rootPct := or_array STORAGE_ROOT_PCT in
  let volPct := or_array STORAGE_VOL_PCT in
  match usageChart with
  | None => Returned
  | Some canvas =>
      match length_of labels with
      | None => Threw
      | Some n =>
          if (n =? 0)%nat then Returned
          else
            Rendered canvas
              {| type := "line";
                 data :=
                   {| labels := labels;
                      datasets :=
                        [ {| label := "Root % Used"; ds_data := rootPct;
                             borderWidth := 2; pointRadius := 3;
                             tension := (25 # 100)%Q |};
                          {| label := "Volume % Used"; ds_data := volPct;
                             borderWidth := 2; pointRadius := 3;
                             tension := (25 # 100)%Q |} ] |} |}
      end
  end.

End Chart.

Arguments undefined {A}.
Arguments array {A} xs.
Arguments Threw {lbl num element}.
Arguments Returned {lbl num element}.
Arguments Rendered {lbl num element} canvas cfg.
Arguments main {lbl num element}.
Arguments label {num}.
Arguments ds_data {num}.
Arguments labels {lbl num}.
Arguments datasets {lbl num}.
Arguments type {lbl num}.
Arguments data {lbl num}.

End Storage.

(** ** The parameter a chip names

    For stating what a click on a chip's remove control touches: the query
    parameter named by a chip of the URL-based page, and the inputs of the
    form that a chip of the form-based page selects. *)

Definition chip_param (c : Url.chip) : option string :=
  if decide (Url.data_kind c = Some "filter")
  then Some ("f_" +:+ to_str (Url.chip_col c))
  else if decide (Url.data_kind c = Some "sort")
  then Some ("s_" +:+ to_str (Url.chip_col c))
  else None.

Definition chip_selector (c : Form.chip) (i : Form.input) : Prop :=
  match Form.chip_col c, Form.data_kind c with
  | Some col, Some kind =>
      col ≠ ""
      ∧ ((kind = "filter" ∧ Form.filter_selector col i)
         ∨ (kind = "sort" ∧ Form.sort_selector col i))
  | _, _ => False
  end.

#[global] Instance chip_selector_dec c i : Decision (chip_selector c i).
Proof.
  unfold chip_selector.
  destruct (Form.chip_col c), (Form.data_kind c); apply _.
Defined.

(** ** Clicks the scripts handle

    The URL-based listeners are installed on the header cells and on the
    chip container, and look for the control from the click's target: a
    click counts as an interaction when it hit a sort control, or a remove
    control inside a chip.  The form-based listeners sit on the controls
    themselves. *)

Definition url_handled (ev : Url.click) : Prop :=
  match ev with
  | Url.ClearBtn | Url.ClearSortsBtn => True
  | Url.Th _ actionEl => actionEl = true
  | Url.Chips x c => x = true ∧ is_Some c
  end.

(** The clicks whose selectors the form model covers. *)
Definition form_plain (ev : Form.click) : Prop :=
  match ev with
  | Form.ClearBtn | Form.ClearSortsBtn => True
  | Form.Sort t => Form.css_plain (Form.data_col t) = true
  | Form.ChipX c => Form.css_plain (or_empty (Form.chip_col c)) = true
  end.

(** A click on the remove control of a chip that lacks a non-empty
    [data-col] or [data-kind]. *)
Definition bare_chip (ev : Form.click) : Prop :=
  match ev with
  | Form.ChipX c => falsy (Form.chip_col c) = true ∨ falsy (Form.data_kind c) = true
  | _ => False
  end.

(** ** The query after a clear-all click

    What the server receives as query parameters once the clear-all handler
    of either script has run: the pairs of the URL navigated to. *)

Definition url_clear_all_query (loc : URL) : list (string * string) :=
  match Url.clearAll loc with
  | Url.Navigated url => searchParams url
  | Url.Returned => searchParams loc
  end.

Definition form_clear_all_query (loc : URL) (inputs : list Form.input)
  : list (string * string) :=
  match Form.clearBtn_click (pathname loc) inputs with
  | Form.Href target => parse_query (query_of_href target)
  | _ => searchParams loc
  end.

(** The form's [limit] field holds the value of the URL's [limit]
    parameter. *)
Definition limit_mirrored (loc : URL) (inputs : list Form.input) : Prop :=
  sp_get "limit" (searchParams loc)
  = (λ r, Form.value r.2) <$> Form.querySelector Form.limit_selector inputs.

(** The two clear-all handlers read as equivalent: from every page state
    whose form mirrors the URL's limit they lead to the same query. *)
Definition clear_all_equivalent : Prop :=
  ∀ loc inputs,
    path_ok (pathname loc) = true → limit_mirrored loc inputs →
    url_clear_all_query loc = form_clear_all_query loc inputs.

(** ** A sample page

    The option-chain report at [/chain], limited to 50 rows, filtered on the
    symbol and sorted on the strike; its form mirrors the query, with the
    hidden sort input inside the header cell 0 of the strike column. *)

Definition sample_loc : URL :=
  mkURL "https://host" "/chain"
        [("limit", "50"); ("f_symbol", "AAPL"); ("s_strike", "asc");
         ("format", "html")] "".

Definition sample_inputs : list Form.input :=
  [ Form.mk_input (Some "limit") false "50" true None;
    Form.mk_input (Some "f_symbol") false "AAPL" true None;
    Form.mk_input (Some "s_strike") true "asc" true (Some 0) ].

Definition sample_th : Form.th := Form.mk_th 0 "strike" (Some "asc").

(** ** One click after another *)

(** [and_then o f]: the page reloads at the URL the first handler navigated
    to (the server answering at that URL), and the next click is handled
    there by [f]. *)
Definition and_then (o : Url.outcome) (f : URL → Url.outcome) : Url.outcome :=
  match o with
  | Url.Navigated url => f url
  | Url.Returned => Url.Returned
  end.

(** [h'] is the input [h] up to its value. *)
Definition same_but_value (h h' : Form.input) : Prop :=
  Form.name h' = Form.name h ∧ Form.hidden h' = Form.hidden h
  ∧ Form.in_form h' = Form.in_form h ∧ Form.in_th h' = Form.in_th h.

(** [h'] is [h] with at most its value replaced by [v]. *)
Definition written (v : string) (h h' : Form.input) : Prop :=
  same_but_value h h' ∧ (Form.value h' = Form.value h ∨ Form.value h' = v).

(** Case analysis on the eight bits of a byte. *)
Ltac each_byte c := destruct c as [[] [] [] [] [] [] [] []].

(** * Properties *)

(** ** The model at work on the sample page *)

Example clearAll_sample :
  Url.clearAll sample_loc
  = Url.Navigated (with_searchParams sample_loc [("format", "html")]).
Proof. reflexivity. Qed.

Example clearSorts_sample :
  Url.clearSorts sample_loc
  = Url.Navigated
      (with_searchParams sample_loc
         [("limit", "50"); ("f_symbol", "AAPL"); ("format", "html")]).
Proof. reflexivity. Qed.

Example th_click_sample :
  Url.th_click sample_loc (Url.mk_th "strike" (Some "asc")) true
  = Url.Navigated
      (with_searchParams sample_loc
         [("limit", "50"); ("f_symbol", "AAPL"); ("s_strike", "desc");
          ("format", "html")]).
Proof. reflexivity. Qed.

Example sp_set_drops_duplicates :
  sp_set "s_bid" "asc" [("s_bid", "desc"); ("limit", "5"); ("s_bid", "")]
  = [("s_bid", "asc"); ("limit", "5")].
Proof. reflexivity. Qed.

Example clearBtn_sample :
  Form.clearBtn_click "/chain" sample_inputs
  = Form.Href "/chain?limit=50&format=html".
Proof. reflexivity. Qed.

Example clearBtn_default_limit :
  Form.clearBtn_click "/chain" [] = Form.Href "/chain?limit=100&format=html".
Proof. reflexivity. Qed.

Example encodeURIComponent_sample :
  encodeURIComponent "5 0&x=1" = "5%200%26x%3D1".
Proof. reflexivity. Qed.

Example parse_query_sample :
  parse_query "a=1&&b&d=e=f&g+h=%41%zz"
  = [("a", "1"); ("b", ""); ("d", "e=f"); ("g h", "A%zz")].
Proof. reflexivity. Qed.

Example css_plain_sample :
  Form.css_plain "strike" = true
  ∧ Form.css_plain (String "034" "strike") = false.
Proof. done. Qed.

Example css_string_sample :
  Form.css_string "strike" = "strike"
  ∧ Form.css_string (String "a" (String "000" "b"))
    = String "a" (String "239" (String "191" (String "189" "b"))).
Proof. done. Qed.

(** ** Lists and URLSearchParams *)

Section SearchParamsFacts.

Implicit Types (l : list (string * string)) (name key : string).

Lemma filter_ext_in {A} (P Q : A → Prop) `{!∀ x, Decision (P x)}
    `{!∀ x, Decision (Q x)} (xs : list A) :
  (∀ x, x ∈ xs → (P x ↔ Q x)) → filter P xs = filter Q xs.
Proof.
  induction xs as [|x xs IH]; intros HPQ; [done|].
  rewrite !filter_cons.
  rewrite IH by (intros y Hy; apply HPQ; by right).
  destruct (HPQ x) as [H1 H2]; [by left|].
  repeat case_decide; tauto || done.
Qed.

Lemma filter_all {A} (P : A → Prop) `{!∀ x, Decision (P x)} (xs : list A) :
  (∀ x, x ∈ xs → P x) → filter P xs = xs.
Proof.
  induction xs as [|x xs IH]; intros HP; [done|].
  rewrite filter_cons_True by (apply HP; by left).
  f_equal. apply IH. intros y Hy. apply HP. by right.
Qed.

Lemma filter_none {A} (P : A → Prop) `{!∀ x, Decision (P x)} (xs : list A) :
  (∀ x, x ∈ xs → ¬ P x) → filter P xs = [].
Proof.
  induction xs as [|x xs IH]; intros HP; [done|].
  rewrite filter_cons. case_decide as Hx.
  - destruct (HP x); [by left|done].
  - apply IH. intros y Hy. apply HP. by right.
Qed.

(** The loop [for (const k of keys) if (P(k)) delete(k)] deletes the pairs
    whose key is among [keys] and satisfies [P]. *)
Lemma delete_loop (P : string → bool) (keys : list string) l :
  fold_left (λ acc k, if P k then sp_delete k acc else acc) keys l
  = filter (λ p, ¬ (p.1 ∈ keys ∧ P p.1 = true)) l.
Proof.
  revert l. induction keys as [|k keys IH]; intros l; simpl.
  - symmetry. apply filter_all. intros p _ [Hin _]. by apply elem_of_nil in Hin.
  - rewrite IH. destruct (P k) eqn:HPk.
    + unfold sp_delete. rewrite list_filter_filter. apply list_filter_iff.
      intros p. rewrite elem_of_cons. split.
      * intros [H1 H2] [[Heq|Hin] HP]; [done|tauto].
      * intros H. split; [tauto|]. intros Heq. apply H. rewrite Heq. tauto.
    + apply list_filter_iff. intros p. rewrite elem_of_cons. split.
      * intros H [[Heq|Hin] HP]; [congruence|tauto].
      * tauto.
Qed.

(** Run over a snapshot of the list's own keys, the loop is a filter. *)
Lemma delete_own_keys (P : string → bool) l :
  fold_left (λ acc k, if P k then sp_delete k acc else acc) (sp_keys l) l
  = filter (λ p, P p.1 = false) l.
Proof.
  rewrite delete_loop. apply filter_ext_in. intros p Hp.
  assert (p.1 ∈ sp_keys l) as Hkey
    by (unfold sp_keys; apply list_elem_of_fmap; eauto).
  destruct (P p.1); split; [intros Hn; destruct Hn| | |]; try done.
  by intros _ [_ ?].
Qed.

Lemma sp_set_other name value key l :
  key ≠ name →
  filter (λ p, p.1 = key) (sp_set name value l) = filter (λ p, p.1 = key) l.
Proof.
  intros Hne. induction l as [|p l IH]; simpl.
  - rewrite filter_cons. by case_decide.
  - case_decide as Hp.
    + rewrite !filter_cons. simpl. repeat case_decide; try congruence.
      unfold sp_delete. rewrite list_filter_filter. apply list_filter_iff.
      intros q. split; [tauto|]. intros ->. split; [done|congruence].
    + rewrite !filter_cons. case_decide; by rewrite IH.
Qed.

Lemma sp_set_own name value l :
  filter (λ p, p.1 = name) (sp_set name value l) = [(name, value)].
Proof.
  induction l as [|p l IH]; simpl.
  - rewrite filter_cons. by case_decide.
  - case_decide as Hp.
    + rewrite filter_cons. simpl. case_decide; [|done]. f_equal.
      unfold sp_delete. rewrite list_filter_filter.
      apply filter_none. tauto.
    + rewrite filter_cons. case_decide; [done|]. apply IH.
Qed.

End SearchParamsFacts.

(** ** Inputs of the form *)

Section FormFacts.

Implicit Types (inputs : list Form.input) (h : Form.input) (v : string).

Lemma assign_value_length el v inputs :
  length (Form.assign_value el v inputs) = length inputs.
Proof. destruct el as [[k h]|]; simpl; [apply length_insert|done]. Qed.

(** After [if (el) el.value = v], with [el] the result of a [querySelector],
    the input found holds [v] and every other input is as before. *)
Lemma assign_value_lookup (sel : Form.input → Prop) `{!∀ i, Decision (sel i)}
    inputs v i h :
  inputs !! i = Some h →
  Form.assign_value (Form.querySelector sel inputs) v inputs !! i
  = Some (if decide (fst <$> Form.querySelector sel inputs = Some i)
          then Form.set_value v h else h).
Proof.
  intros Hi. unfold Form.querySelector.
  destruct (list_find sel inputs) as [[k h']|] eqn:Hfind; simpl.
  - apply list_find_Some in Hfind as (Hk & _ & _).
    rewrite list_lookup_insert.
    pose proof (lookup_lt_Some _ _ _ Hk).
    destruct (decide (k = i)) as [->|Hne].
    + rewrite Hi in Hk. injection Hk as <-.
      rewrite decide_True by done. by rewrite decide_True.
    + rewrite decide_False by tauto. rewrite decide_False by congruence. done.
  - done.
Qed.

Lemma sorts_selector_spec h :
  Form.sorts_selector h = true
  ↔ Form.in_form h = true ∧ Form.hidden h = true
    ∧ ∃ n, Form.name h = Some n ∧ startsWith n "s_" = true.
Proof.
  unfold Form.sorts_selector. rewrite !andb_true_iff.
  destruct (Form.name h) as [n|]; split.
  - intros [[? ?] ?]. eauto.
  - intros (? & ? & n' & [= <-] & ?). done.
  - intros [_ ?]. done.
  - intros (_ & _ & n' & ? & _). done.
Qed.

End FormFacts.

Lemma startsWith_cons (b a : ascii) (s p : string) :
  startsWith (String b s) (String a p) = Ascii.eqb a b && startsWith s p.
Proof. reflexivity. Qed.

Lemma prefix_f_not_s (k : string) :
  startsWith k "f_" = true → startsWith k "s_" = false.
Proof.
  destruct k as [|c k]; [done|]. rewrite !startsWith_cons.
  destruct (Ascii.eqb_spec "f" c) as [<-|]; [|done].
  intros _. reflexivity.
Qed.

(** ** Clearing the sorts *)

(** C3.  Clicking the clear-sorts button removes exactly the sort state.  In
    the URL-based implementation the handler navigates to the current URL
    with every query parameter whose key starts with [s_] deleted and every
    other parameter, in particular the [f_] parameters and [limit], as it
    was (same pairs, same order).  In the form-based implementation the
    handler submits the form with the same inputs in the same order, where
    every hidden input of the form whose name starts with [s_] has the
    empty string as its value, its name, type and place unchanged, and every
    other input is exactly as it was. *)
Theorem clear_sorts_frame (loc : URL) (inputs : list Form.input) :
  let kept := filter (λ p, startsWith p.1 "s_" = false) (searchParams loc) in
  Url.clearSorts loc = Url.Navigated (with_searchParams loc kept)
  ∧ (∀ k v, (k, v) ∈ kept
            ↔ (k, v) ∈ searchParams loc ∧ startsWith k "s_" = false)
  ∧ (∀ k, startsWith k "f_" = true ∨ k = "limit" →
          filter (λ p, p.1 = k) kept = filter (λ p, p.1 = k) (searchParams loc))
  ∧ ∃ inputs',
      Form.clearSortsBtn_click inputs = (inputs', Form.Submit)
      ∧ length inputs' = length inputs
      ∧ ∀ i h, inputs !! i = Some h →
          ∃ h', inputs' !! i = Some h'
            ∧ same_but_value h h'
            ∧ ((Form.in_form h = true ∧ Form.hidden h = true
                ∧ ∃ n, Form.name h = Some n ∧ startsWith n "s_" = true) →
               Form.value h' = "")
            ∧ (¬ (Form.in_form h = true ∧ Form.hidden h = true
                  ∧ ∃ n, Form.name h = Some n ∧ startsWith n "s_" = true) →
               h' = h).
Proof.
  intros kept. split; [|split; [|split]].
  - unfold Url.clearSorts. by rewrite (delete_own_keys (λ k, startsWith k "s_")).
  - intros k v. unfold kept. rewrite list_elem_of_filter. simpl. tauto.
  - intros k Hk. unfold kept. rewrite list_filter_filter.
    apply list_filter_iff. intros p. split; [tauto|]. intros ->. split; [done|].
    destruct Hk as [Hk| ->]; [by apply prefix_f_not_s|done].
  - eexists. split; [reflexivity|]. split; [apply length_fmap|].
    intros i h Hi. rewrite list_lookup_fmap, Hi. simpl.
    eexists. split; [reflexivity|].
    destruct (Form.sorts_selector h) eqn:Hsel.
    + apply sorts_selector_spec in Hsel.
      split; [done|]. split; [done|]. by intros [].
    + split; [done|]. split; [|done].
      intros Hh%sorts_selector_spec. congruence.
Qed.

(** ** Sort clicks *)

Lemma next_cases :
  next "" = "asc" ∧ next "asc" = "desc" ∧ ∀ s, s ≠ "" → s ≠ "asc" → next s = "".
Proof.
  split; [done|]. split; [done|]. intros s H1 H2. unfold next.
  destruct (String.eqb_spec s ""); [done|].
  destruct (String.eqb_spec s "asc"); done.
Qed.

(** C1, as stated, fails in the form-based implementation: on a page whose
    header cell for [strike] holds no hidden input named [s_strike], a sort
    click on the unsorted column computes the successor [asc] but writes it
    nowhere; the form is submitted with its fields as they were. *)
Lemma sort_click_without_hidden_input :
  let inputs := [Form.mk_input (Some "limit") false "100" true None] in
  let t := Form.mk_th 0 "strike" None in
  next (or_empty (Form.data_sort t)) = "asc"
  ∧ Form.sort_click inputs t = Some (inputs, Form.Submit)
  ∧ Form.form_fields inputs = [("limit", "100")].
Proof. vm_compute. done. Qed.

(** C1, amended.  A sort click reads the column's sort state (the cell's
    [data-sort], the empty string when absent) and computes its successor:
    [asc] after the empty string, [desc] after [asc], the empty string after
    anything else.  The URL-based handler navigates to the current URL in
    which exactly one pair named [s_<col>] remains, holding the successor,
    and the pairs of every other name are as before.  The form-based
    handler, for a [data-col] free of double quote, backslash and line
    break, submits the form after writing the successor into the first
    hidden input inside the header cell that the selector
    [input[type="hidden"][name="s_<col>"]] matches (its name is [s_<col>],
    a U+0000 of [data-col] read as U+FFFD), when there is one; that input
    keeps its name, type and place, and every other input, and every input
    when there is none, is left as it was. *)
Theorem sort_click_writes_successor (loc : URL) (t : Url.th)
    (inputs : list Form.input) (ft : Form.th) :
  Form.css_plain (Form.data_col ft) = true →
  (next "" = "asc" ∧ next "asc" = "desc"
   ∧ ∀ s, s ≠ "" → s ≠ "asc" → next s = "")
  ∧ (let key := "s_" +:+ Url.data_col t in
     let succ := next (or_empty (Url.data_sort t)) in
     ∃ sp, Url.th_click loc t true = Url.Navigated (with_searchParams loc sp)
       ∧ filter (λ p, p.1 = key) sp = [(key, succ)]
       ∧ ∀ k, k ≠ key →
           filter (λ p, p.1 = k) sp = filter (λ p, p.1 = k) (searchParams loc))
  ∧ (let succ := next (or_empty (Form.data_sort ft)) in
     let hid := Form.querySelector (Form.th_sort_selector ft) inputs in
     ∃ inputs', Form.sort_click inputs ft = Some (inputs', Form.Submit)
       ∧ length inputs' = length inputs
       ∧ (∀ k h, hid = Some (k, h) ↔
            inputs !! k = Some h
            ∧ (Form.in_th h = Some (Form.th_id ft) ∧ Form.hidden h = true
               ∧ Form.name h
                 = Some ("s_" +:+ Form.css_string (Form.data_col ft)))
            ∧ ∀ j y, inputs !! j = Some y → j < k →
                ¬ (Form.in_th y = Some (Form.th_id ft) ∧ Form.hidden y = true
                   ∧ Form.name y
                     = Some ("s_" +:+ Form.css_string (Form.data_col ft))))
       ∧ ∀ i h, inputs !! i = Some h →
           ∃ h', inputs' !! i = Some h'
             ∧ same_but_value h h'
             ∧ Form.value h'
               = (if decide (fst <$> hid = Some i) then succ
                  else Form.value h)).
Proof.
  intros Hplain. split; [apply next_cases|]. split.
  - eexists. split; [reflexivity|]. split.
    + apply sp_set_own.
    + intros k Hk. by apply sp_set_other.
  - unfold Form.sort_click. rewrite Hplain. eexists.
    split; [reflexivity|]. split; [apply assign_value_length|]. split.
    + intros k h. unfold Form.querySelector. rewrite list_find_Some.
      reflexivity.
    + intros i h Hi. rewrite (assign_value_lookup _ inputs _ i h Hi).
      eexists. split; [reflexivity|]. by case_decide.
Qed.

Lemma sort_click_writes_successor_witness :
  Form.css_plain (Form.data_col sample_th) = true
  ∧ ∃ inputs' h',
      Form.sort_click sample_inputs sample_th = Some (inputs', Form.Submit)
      ∧ inputs' !! 2 = Some h'
      ∧ Form.name h' = Some "s_strike"
      ∧ Form.value h' = "desc".
Proof.
  split; [reflexivity|].
  destruct (sort_click_writes_successor sample_loc
              (Url.mk_th "strike" (Some "asc")) sample_inputs sample_th
              eq_refl) as (_ & _ & inputs' & Hclick & _ & _ & Hlookup).
  destruct (Hlookup 2 _ eq_refl) as (h' & Hh' & (Hname & _) & Hvalue).
  exists inputs', h'. split; [exact Hclick|]. split; [exact Hh'|].
  split; [exact Hname | exact Hvalue].
Defined.

(** ** Chip removal *)

Lemma strict_eq_true (a : option string) (lit : string) :
  strict_eq a lit = true ↔ a = Some lit.
Proof.
  destruct a as [s|]; simpl; [|done].
  destruct (String.eqb_spec s lit); split; congruence.
Qed.

Lemma strict_eq_false (a : option string) (lit : string) :
  strict_eq a lit = false ↔ a ≠ Some lit.
Proof.
  rewrite <- strict_eq_true. destruct (strict_eq a lit); split; congruence.
Qed.

Lemma falsy_false (a : option string) :
  falsy a = false ↔ ∃ s, a = Some s ∧ s ≠ "".
Proof.
  destruct a as [s|]; simpl.
  - destruct (String.eqb_spec s ""); split.
    + done.
    + intros (s' & [= <-] & Hs). done.
    + eauto.
    + done.
  - split; [done|]. intros (s & ? & _). done.
Qed.

Lemma assign_value_names (sel : Form.input → Prop) `{!∀ i, Decision (sel i)}
    (inputs : list Form.input) v :
  Form.name <$> Form.assign_value (Form.querySelector sel inputs) v inputs
  = Form.name <$> inputs.
Proof.
  apply list_eq. intros i. rewrite !list_lookup_fmap.
  destruct (inputs !! i) as [h|] eqn:Hi.
  - rewrite (assign_value_lookup sel inputs v i h Hi). simpl.
    by case_decide.
  - apply lookup_ge_None in Hi. rewrite lookup_ge_None_2; [done|].
    by rewrite assign_value_length.
Qed.

(** C4, as stated, fails in the form-based implementation: removing the
    filter chip of [symbol] on the sample page does not delete the parameter
    [f_symbol]; the form is submitted with that field still in it, holding
    the empty string. *)
Lemma chip_click_keeps_field :
  Form.chip_x_click sample_inputs (Form.mk_chip (Some "symbol") (Some "filter"))
  = Some ([ Form.mk_input (Some "limit") false "50" true None;
            Form.mk_input (Some "f_symbol") false "" true None;
            Form.mk_input (Some "s_strike") true "asc" true (Some 0) ],
          Form.Submit)
  ∧ Form.form_fields
      [ Form.mk_input (Some "limit") false "50" true None;
        Form.mk_input (Some "f_symbol") false "" true None;
        Form.mk_input (Some "s_strike") true "asc" true (Some 0) ]
    = [("limit", "50"); ("f_symbol", ""); ("s_strike", "asc")].
Proof. vm_compute. done. Qed.

Lemma chips_click_params (loc : URL) (c : Url.chip) :
  Url.chips_click loc true (Some c)
  = Url.Navigated
      (with_searchParams loc
         (filter (λ p, chip_param c ≠ Some p.1) (searchParams loc))).
Proof.
  unfold Url.chips_click. simpl. do 2 f_equal.
  destruct (strict_eq (Url.data_kind c) "filter") eqn:Hf.
  - apply strict_eq_true in Hf.
    assert (chip_param c = Some ("f_" +:+ to_str (Url.chip_col c))) as ->
      by (unfold chip_param; by rewrite decide_True).
    rewrite Hf. simpl. apply list_filter_iff. intros p. split; congruence.
  - apply strict_eq_false in Hf.
    destruct (strict_eq (Url.data_kind c) "sort") eqn:Hs.
    + apply strict_eq_true in Hs.
      assert (chip_param c = Some ("s_" +:+ to_str (Url.chip_col c))) as ->
        by (unfold chip_param; rewrite decide_False by done;
            by rewrite decide_True).
      apply list_filter_iff. intros p. split; congruence.
    + apply strict_eq_false in Hs.
      assert (chip_param c = None) as ->
        by (unfold chip_param; by rewrite !decide_False).
      symmetry. apply filter_all. done.
Qed.

Lemma chip_selector_none (fc : Form.chip) (inputs : list Form.input) :
  (∀ i, ¬ chip_selector fc i) → list_find (chip_selector fc) inputs = None.
Proof. intros Hno. apply list_find_None, Forall_forall. auto. Qed.

Lemma chip_x_click_target (inputs : list Form.input) (fc : Form.chip) :
  Form.css_plain (or_empty (Form.chip_col fc)) = true →
  ∃ el,
    fst <$> el = fst <$> list_find (chip_selector fc) inputs
    ∧ (el = None ∨ ∃ sel (Hdec : ∀ i, Decision (sel i)),
                     el = Form.querySelector sel inputs)
    ∧ Form.chip_x_click inputs fc
      = Some (Form.assign_value el "" inputs,
              if falsy (Form.chip_col fc) || falsy (Form.data_kind fc)
              then Form.NoSignal else Form.Submit).
Proof.
  intros Hplain. unfold Form.chip_x_click.
  destruct fc as [[col|] [kind|]]; simpl in *;
    try (exists None;
         rewrite chip_selector_none
           by (intros i; unfold chip_selector; simpl; tauto);
         split; [done|]; split; [by left | by rewrite ?orb_true_r]).
  destruct (String.eqb_spec col "") as [->|Hcol]; simpl.
  { exists None. rewrite chip_selector_none by (by intros i [? _]). eauto. }
  destruct (String.eqb_spec kind "") as [->|Hkind]; simpl.
  { exists None.
    rewrite chip_selector_none by (by intros i (_ & [[? _]|[? _]])). eauto. }
  rewrite Hplain.
  destruct (String.eqb_spec kind "filter") as [->|Hnf].
  { exists (Form.querySelector (Form.filter_selector col) inputs).
    split; [|by eauto]. unfold Form.querySelector. f_equal.
    apply list_find_ext. intros i. unfold chip_selector. simpl.
    split; [intros ?; eauto|]. intros (_ & [[_ ?]|[? _]]); done. }
  destruct (String.eqb_spec kind "sort") as [->|Hns].
  { exists (Form.querySelector (Form.sort_selector col) inputs).
    split; [|by eauto]. unfold Form.querySelector. f_equal.
    apply list_find_ext. intros i. unfold chip_selector. simpl.
    split; [intros ?; eauto|]. intros (_ & [[? _]|[_ ?]]); done. }
  exists None.
  rewrite chip_selector_none by (by intros i (_ & [[? _]|[? _]])). eauto.
Qed.

(** C4, amended.  Clicking a chip's remove control clears exactly the one
    parameter named by the chip.  The URL-based handler navigates to the
    current URL with every pair named [f_<col>] (data-kind [filter]) or
    [s_<col>] (data-kind [sort]) deleted and all other pairs as they were.
    The form-based handler, for a [data-col] free of double quote, backslash
    and line break, deletes nothing: it gives the empty string to the first
    input of the form named [f_<col>] (data-kind [filter]), or to the first
    hidden input of the form named [s_<col>] (data-kind [sort]), a U+0000
    of [data-col] read as U+FFFD; that input stays in the form with its
    name, type and place; every other input, and every input when there is
    no such field, is left as it was.  For any other data-kind no parameter
    and no input is changed at all, and neither is any input when the
    chip's [data-col] or [data-kind] is missing or empty. *)
Theorem chip_remove_frame (loc : URL) (c : Url.chip)
    (inputs : list Form.input) (fc : Form.chip) :
  Form.css_plain (or_empty (Form.chip_col fc)) = true →
  (∃ sp, Url.chips_click loc true (Some c)
         = Url.Navigated (with_searchParams loc sp)
     ∧ sp = filter (λ p, chip_param c ≠ Some p.1) (searchParams loc)
     ∧ (Url.data_kind c ≠ Some "filter" → Url.data_kind c ≠ Some "sort" →
        sp = searchParams loc))
  ∧ (let target := fst <$> list_find (chip_selector fc) inputs in
     ∃ inputs' sig, Form.chip_x_click inputs fc = Some (inputs', sig)
       ∧ Form.name <$> inputs' = Form.name <$> inputs
       ∧ (∀ i h, inputs !! i = Some h →
            ∃ h', inputs' !! i = Some h'
              ∧ same_but_value h h'
              ∧ Form.value h'
                = (if decide (target = Some i) then "" else Form.value h))
       ∧ (Form.data_kind fc ≠ Some "filter" →
          Form.data_kind fc ≠ Some "sort" → inputs' = inputs)
       ∧ (falsy (Form.chip_col fc) = true ∨ falsy (Form.data_kind fc) = true →
          inputs' = inputs)).
Proof.
  intros Hplain. split.
  - eexists. split; [apply chips_click_params|]. split; [done|].
    intros Hf Hs. apply filter_all. intros p _.
    unfold chip_param. by rewrite !decide_False.
  - intros target.
    destruct (chip_x_click_target inputs fc Hplain) as (el & Hel & Hsel & Hclick).
    eexists _, _. split; [exact Hclick|].
    assert (Form.data_kind fc ≠ Some "filter" →
            Form.data_kind fc ≠ Some "sort" → target = None) as Hother.
    { intros Hf Hs. unfold target. rewrite chip_selector_none; [done|].
      intros i. unfold chip_selector.
      destruct (Form.chip_col fc), (Form.data_kind fc); try tauto.
      intros (_ & [[-> _]|[-> _]]); done. }
    assert (falsy (Form.chip_col fc) = true ∨ falsy (Form.data_kind fc) = true →
            target = None) as Hbare.
    { intros Hf. unfold target. rewrite chip_selector_none; [done|].
      intros i. unfold chip_selector.
      destruct (Form.chip_col fc) as [col|], (Form.data_kind fc) as [kind|];
        try tauto.
      simpl in Hf. intros (Hcol & Hkind).
      destruct Hf as [Hf|Hf]; apply String.eqb_eq in Hf as ->; [done|].
      by destruct Hkind as [[? _]|[? _]]. }
    fold target in Hel.
    assert (target = None → Form.assign_value el "" inputs = inputs) as Hnone.
    { intros Ht. rewrite Ht in Hel. by destruct el. }
    destruct Hsel as [->|(sel & Hdec & ->)]; simpl.
    + repeat split; try done.
      intros i h Hi. simpl in Hel. rewrite <- Hel. by exists h.
    + split; [apply assign_value_names|]. split; [|split; auto].
      intros i h Hi. rewrite (assign_value_lookup sel inputs "" i h Hi).
      rewrite Hel. eexists. split; [reflexivity|]. by case_decide.
Qed.

Lemma chip_remove_frame_witness :
  Form.css_plain "symbol" = true
  ∧ ∃ inputs' sig h',
      Form.chip_x_click sample_inputs
        (Form.mk_chip (Some "symbol") (Some "filter")) = Some (inputs', sig)
      ∧ Form.name <$> inputs' = [Some "limit"; Some "f_symbol"; Some "s_strike"]
      ∧ inputs' !! 1 = Some h'
      ∧ Form.value h' = "".
Proof.
  split; [reflexivity|].
  destruct (chip_remove_frame sample_loc
              (Url.mk_chip (Some "filter") (Some "symbol")) sample_inputs
              (Form.mk_chip (Some "symbol") (Some "filter")) eq_refl)
    as (_ & inputs' & sig & Hclick & Hnames & Hlookup & _).
  destruct (Hlookup 1 _ eq_refl) as (h' & Hh' & _ & Hvalue).
  exists inputs', sig, h'. split; [exact Hclick|]. split; [exact Hnames|].
  split; [exact Hh' | exact Hvalue].
Defined.

(** ** Every interaction reloads *)

(** C2, as stated, fails in the form-based implementation: a click on the
    remove control of a chip without [data-col] returns at the guard
    [if (!col || !kind) return], before [form.submit()]; nothing is changed
    and nothing is submitted. *)
Lemma chip_click_without_col_ignored :
  Form.on_click true "/chain" sample_inputs
    (Form.ChipX (Form.mk_chip None (Some "filter")))
  = Some (sample_inputs, Form.NoSignal).
Proof. reflexivity. Qed.

(** C2, amended.  With [#qform] on the page, every handled interaction (a
    click on either clear button, on a sort control, on the remove control
    of a chip) ends by assigning [window.location.href] or by submitting the
    form, with two provisos on the form-based script.  Its sort and chip
    handlers splice [data-col] into a selector, and the statement covers
    the clicks whose [data-col] is free of double quote, backslash and line
    break ([form_plain]).  And its chip handler ignores a click on the
    remove control of a chip that lacks a non-empty [data-col] or
    [data-kind]: that click, and no other, ends without reload or
    submission.  An ignored click changes no input: no interaction mutates
    state without also triggering the reload or submission. *)
Theorem interactions_trigger_reload (loc : URL) (inputs : list Form.input)
    (ev : Url.click) (fev : Form.click) :
  url_handled ev → form_plain fev →
  (∃ url, Url.on_click true loc ev = Url.Navigated url)
  ∧ ∃ inputs' sig,
      Form.on_click true (pathname loc) inputs fev = Some (inputs', sig)
      ∧ (sig = Form.NoSignal ↔ bare_chip fev)
      ∧ (sig = Form.NoSignal → inputs' = inputs).
Proof.
  intros Hev Hfev. split.
  - destruct ev as [| |t actionEl|x c]; simpl in *.
    + by eexists.
    + by eexists.
    + subst actionEl. by eexists.
    + destruct Hev as [-> [c' ->]]. by eexists.
  - unfold Form.on_click. cbn [negb].
    destruct fev as [| |t|c]; cbn [form_plain bare_chip] in *.
    + eexists _, _. split; [reflexivity|]. split; [|done]. by split.
    + eexists _, _. split; [reflexivity|]. split; [|done]. by split.
    + unfold Form.sort_click. rewrite Hfev. eexists _, _.
      split; [reflexivity|]. split; [|done]. by split.
    + destruct (chip_x_click_target inputs c Hfev) as (el & _ & _ & Hclick).
      rewrite Hclick. eexists _, _. split; [reflexivity|].
      split.
      * destruct (falsy (Form.chip_col c)), (falsy (Form.data_kind c)); simpl;
          split; try done; auto.
        intros [?|?]; done.
      * revert Hclick. unfold Form.chip_x_click.
        destruct (falsy (Form.chip_col c) || falsy (Form.data_kind c)); [|done].
        by intros [= <-] _.
Qed.

Lemma interactions_trigger_reload_witness :
  url_handled (Url.Th (Url.mk_th "strike" (Some "asc")) true)
  ∧ form_plain (Form.Sort sample_th)
  ∧ (∃ url, Url.on_click true sample_loc
              (Url.Th (Url.mk_th "strike" (Some "asc")) true)
            = Url.Navigated url)
  ∧ ∃ inputs' sig,
      Form.on_click true "/chain" sample_inputs (Form.Sort sample_th)
      = Some (inputs', sig)
      ∧ (sig = Form.NoSignal ↔ False).
Proof.
  split; [reflexivity|]. split; [reflexivity|].
  destruct (interactions_trigger_reload sample_loc sample_inputs
              (Url.Th (Url.mk_th "strike" (Some "asc")) true)
              (Form.Sort sample_th) eq_refl eq_refl)
    as (Hurl & inputs' & sig & Hclick & Hsig & _).
  split; [exact Hurl|]. exists inputs', sig. split; [exact Hclick | exact Hsig].
Defined.

(** ** The storage chart *)

Section ChartFacts.

Context {lbl num element : Type}.
Implicit Types (usageChart : option element) (canvas : element)
  (L : Storage.global lbl) (R V : Storage.global num).

Lemma main_rendered canvas (x : lbl) (xs : list lbl) R V :
  Storage.main (Some canvas) (Storage.array (x :: xs)) R V
  = Storage.Rendered canvas
      (Storage.mk_config lbl num "line"
         (Storage.mk_chart_data lbl num (Storage.array (x :: xs))
            [ Storage.mk_dataset num "Root % Used" (Storage.or_array R) 2 3
                (25 # 100)%Q;
              Storage.mk_dataset num "Volume % Used" (Storage.or_array V) 2 3
                (25 # 100)%Q ])).
Proof. reflexivity. Qed.

(** C5.  When the chart is drawn (the canvas exists and there is at least
    one label), [new Chart] receives a configuration of type [line] with
    exactly two datasets, labelled [Root % Used] and [Volume % Used] in that
    order, whose data are the root and the volume percentage series (the
    empty array for a series that is undefined) and whose labels are the
    label array. *)
Theorem chart_is_line_with_two_datasets canvas (x : lbl) (xs : list lbl) R V :
  ∃ cfg root vol,
    Storage.main (Some canvas) (Storage.array (x :: xs)) R V
    = Storage.Rendered canvas cfg
    ∧ Storage.type cfg = "line"
    ∧ Storage.labels (Storage.data cfg) = Storage.array (x :: xs)
    ∧ Storage.datasets (Storage.data cfg) = [root; vol]
    ∧ Storage.label root = "Root % Used"
    ∧ Storage.ds_data root = Storage.or_array R
    ∧ Storage.label vol = "Volume % Used"
    ∧ Storage.ds_data vol = Storage.or_array V.
Proof. eexists _, _, _. rewrite main_rendered. by repeat split. Qed.

(** C6.  The three arrays reach the chart unmodified: for every triple of
    arrays with at least one label, the labels and the data of the two
    datasets handed to [new Chart] have the lengths of the global arrays
    and the same element at every index. *)
Theorem arrays_pass_through canvas (ls : list lbl) (rs vs : list num) :
  0 < length ls →
  ∃ cfg root vol,
    Storage.main (Some canvas) (Storage.array ls) (Storage.array rs)
      (Storage.array vs)
    = Storage.Rendered canvas cfg
    ∧ Storage.datasets (Storage.data cfg) = [root; vol]
    ∧ length (Storage.items (Storage.labels (Storage.data cfg))) = length ls
    ∧ length (Storage.items (Storage.ds_data root)) = length rs
    ∧ length (Storage.items (Storage.ds_data vol)) = length vs
    ∧ ∀ i,
        Storage.items (Storage.labels (Storage.data cfg)) !! i = ls !! i
        ∧ Storage.items (Storage.ds_data root) !! i = rs !! i
        ∧ Storage.items (Storage.ds_data vol) !! i = vs !! i.
Proof.
  intros Hlen. destruct ls as [|x xs]; [simpl in Hlen; lia|].
  eexists _, _, _. rewrite main_rendered. by repeat split.
Qed.

(** C9.  Without data nothing is drawn and nothing fails: the script
    returns before [new Chart] when the canvas [#usageChart] is absent, when
    [STORAGE_LABELS] is undefined and when it is empty, and in no other
    case; it never ends with an exception, whichever of the three globals is
    undefined; an undefined series reaches the chart as the empty array. *)
Theorem no_chart_without_data usageChart canvas L R V (x : lbl) (xs : list lbl) :
  Storage.main (@None element) L R V = Storage.Returned
  ∧ Storage.main usageChart (@Storage.undefined lbl) R V = Storage.Returned
  ∧ Storage.main usageChart (@Storage.array lbl []) R V = Storage.Returned
  ∧ (Storage.main usageChart L R V = Storage.Returned
     ↔ usageChart = None ∨ Storage.items L = [])
  ∧ Storage.main usageChart L R V ≠ Storage.Threw
  ∧ ∃ cfg,
      Storage.main (Some canvas) (Storage.array (x :: xs))
        (@Storage.undefined num) (@Storage.undefined num)
      = Storage.Rendered canvas cfg
      ∧ Storage.ds_data <$> Storage.datasets (Storage.data cfg)
        = [Storage.array []; Storage.array []].
Proof.
  split; [done|]. split; [by destruct usageChart|].
  split; [by destruct usageChart|]. split; [|split].
  - destruct usageChart as [c|]; [|by split; auto].
    destruct L as [|[|y ys]]; simpl; split; auto; try done.
    intros [?|?]; done.
  - destruct usageChart as [c|]; [|done]. by destruct L as [|[|y ys]].
  - eexists. by rewrite main_rendered.
Qed.

End ChartFacts.

Lemma arrays_pass_through_witness :
  0 < length ["2024-01-01"; "2024-01-02"]
  ∧ ∃ cfg root vol,
      Storage.main (Some tt) (Storage.array ["2024-01-01"; "2024-01-02"])
        (Storage.array [41; 42]%Z) (Storage.array [73; 75]%Z)
      = Storage.Rendered tt cfg
      ∧ Storage.datasets (Storage.data cfg) = [root; vol]
      ∧ Storage.items (Storage.ds_data vol) !! 1 = Some 75%Z.
Proof.
  split; [simpl; lia|].
  destruct (arrays_pass_through tt ["2024-01-01"; "2024-01-02"] [41; 42]%Z
              [73; 75]%Z ltac:(simpl; lia))
    as (cfg & root & vol & Hmain & Hds & _ & _ & _ & Hlookup).
  exists cfg, root, vol. split; [exact Hmain|]. split; [exact Hds|].
  exact (proj2 (proj2 (Hlookup 1))).
Defined.

(** ** The sort cycle *)

Section SortCycle.

Lemma next_in_cycle s : in_cycle (next s).
Proof.
  unfold next, in_cycle.
  destruct (s =? "")%string; [auto|]. destruct (s =? "asc")%string; auto.
Qed.

Lemma sort_after_S n s : sort_after (S n) s = next (sort_after n s).
Proof. reflexivity. Qed.

Lemma sort_after_in_cycle n s : 0 < n → in_cycle (sort_after n s).
Proof.
  destruct n as [|n]; [lia|]. intros _. rewrite sort_after_S.
  apply next_in_cycle.
Qed.

Lemma sort_after_add a b s :
  sort_after (a + b) s = sort_after a (sort_after b s).
Proof. unfold sort_after. apply Nat.iter_add. Qed.

Lemma sort_after_3 s : in_cycle s → sort_after 3 s = s.
Proof. by intros [->|[->| ->]]. Qed.

Lemma sort_after_3k k s : in_cycle s → sort_after (3 * k) s = s.
Proof.
  intros Hs. induction k as [|k IH]; [done|].
  replace (3 * S k) with (3 + 3 * k) by lia.
  rewrite sort_after_add, IH. by apply sort_after_3.
Qed.

Lemma sort_after_mod n s : in_cycle s → sort_after n s = sort_after (n mod 3) s.
Proof.
  intros Hs. rewrite (Nat.div_mod_eq n 3) at 1.
  rewrite Nat.add_comm, sort_after_add. by rewrite sort_after_3k.
Qed.

Lemma fixed_only_at_0 r s :
  in_cycle s → r < 3 → sort_after r s = s → r = 0.
Proof.
  intros [->|[->| ->]] Hr; destruct r as [|[|[|r]]]; try done; lia.
Qed.

End SortCycle.

(** C7, as stated, fails: the sort state of a column is a state machine with
    a three-step cycle.  Three clicks on an unsorted column restore the
    empty sort state after passing through two distinct states, [asc] and
    [desc] (the form-based script says so in its comment: none, asc, desc,
    none). *)
Lemma sort_cycle_has_two_intermediate_states :
  sort_after 3 "" = ""
  ∧ intermediate 3 "" = ["asc"; "desc"]
  ∧ ¬ no_sort_cycle.
Proof.
  split; [done|]. split; [done|]. intros Hclaim.
  assert ("asc" = "desc") as Habs; [|done].
  apply (Hclaim "" 3); [lia|done| | |].
  - intros k Hk. assert (k = 1 ∨ k = 2) as [->| ->] by lia; done.
  - vm_compute. by left.
  - vm_compute. right. by left.
Qed.

(** C7, amended.  The sort state of a column is a small state machine: a
    sort click takes the empty state to [asc], [asc] to [desc] and [desc]
    to the empty state.  Whenever [n] repeated clicks on a column restore
    its starting state, that state is one of these three, [n] is a multiple
    of three, the first and the second click lead to two distinct states
    other than the starting one, the third restores it, and no other state
    is passed through: a sequence of clicks that returns to its start
    passes through exactly two distinct intermediate states. *)
Theorem sort_clicks_cycle (s : string) (n : nat) :
  0 < n → sort_after n s = s →
  (sort_after 1 "" = "asc" ∧ sort_after 1 "asc" = "desc"
   ∧ sort_after 1 "desc" = "")
  ∧ (s = "" ∨ s = "asc" ∨ s = "desc")
  ∧ n mod 3 = 0
  ∧ sort_after 3 s = s
  ∧ sort_after 1 s ≠ s ∧ sort_after 2 s ≠ s
  ∧ sort_after 1 s ≠ sort_after 2 s
  ∧ ∀ k, sort_after k s ∈ [s; sort_after 1 s; sort_after 2 s].
Proof.
  intros Hn Hs. split; [done|].
  assert (in_cycle s) as Hcyc by (rewrite <- Hs; by apply sort_after_in_cycle).
  split; [exact Hcyc|]. split.
  { apply (fixed_only_at_0 _ s Hcyc); [apply Nat.mod_upper_bound; lia|].
    by rewrite <- sort_after_mod. }
  split; [by apply sort_after_3|].
  assert (∀ k, sort_after k s
               ∈ [s; sort_after 1 s; sort_after 2 s]) as Hall.
  { intros k. rewrite (sort_after_mod k s Hcyc).
    pose proof (Nat.mod_upper_bound k 3 ltac:(lia)) as Hk.
    destruct (k mod 3) as [|[|[|r]]]; [| | |lia].
    - by left.
    - right. by left.
    - right. right. by left. }
  destruct Hcyc as [->|[->| ->]]; by repeat split.
Qed.

Lemma sort_clicks_cycle_witness :
  0 < 6 ∧ sort_after 6 "asc" = "asc"
  ∧ sort_after 1 "" = "asc"
  ∧ 6 mod 3 = 0
  ∧ sort_after 1 "asc" ≠ sort_after 2 "asc".
Proof.
  split; [lia|]. split; [reflexivity|].
  destruct (sort_clicks_cycle "asc" 6 ltac:(lia) eq_refl)
    as ((Hfirst & _) & _ & Hmod & _ & _ & _ & Hne & _).
  split; [exact Hfirst|]. split; [exact Hmod | exact Hne].
Defined.

(** ** Percent-encoding round trip *)

Section Encoding.

Implicit Types (c d : ascii) (s t : string).

Lemma append_nil t : "" +:+ t = t.
Proof. reflexivity. Qed.

Lemma append_cons c s t : String c s +:+ t = String c (s +:+ t).
Proof. reflexivity. Qed.

Lemma hex_digits_decode c :
  let n := N_of_ascii c in
  hex_value (hex_digit (n / 16)) = Some (n / 16)%N
  ∧ hex_value (hex_digit (n mod 16)) = Some (n mod 16)%N
  ∧ ascii_of_N (16 * (n / 16) + n mod 16) = c.
Proof. each_byte c; vm_compute; done. Qed.

Lemma hex_digits_unreserved c :
  let n := N_of_ascii c in
  uri_unreserved (hex_digit (n / 16)) = true
  ∧ uri_unreserved (hex_digit (n mod 16)) = true.
Proof. each_byte c; vm_compute; done. Qed.

Lemma percent_decode_plain c s :
  Ascii.eqb c "%" = false →
  percent_decode (String c s) = String c (percent_decode s).
Proof. intros Hc. cbn [percent_decode]. by rewrite Hc. Qed.

Lemma percent_decode_byte c s :
  percent_decode (percent_byte c +:+ s) = String c (percent_decode s).
Proof.
  destruct (hex_digits_decode c) as (Hhi & Hlo & Hc).
  unfold percent_byte. rewrite !append_cons, append_nil.
  cbn [percent_decode]. rewrite Ascii.eqb_refl, Hhi, Hlo. by rewrite Hc.
Qed.

Lemma unreserved_differs c d :
  uri_unreserved c = true → uri_unreserved d = false → Ascii.eqb c d = false.
Proof.
  intros Hc Hd. destruct (Ascii.eqb_spec c d) as [->|]; [congruence|done].
Qed.

(** Decoding undoes [encodeURIComponent]. *)
Lemma percent_decode_encode s : percent_decode (encodeURIComponent s) = s.
Proof.
  induction s as [|c s IH]; [done|]. cbn [encodeURIComponent].
  destruct (uri_unreserved c) eqn:Hc.
  - rewrite percent_decode_plain by (by apply unreserved_differs).
    by rewrite IH.
  - by rewrite percent_decode_byte, IH.
Qed.

(** A reserved character other than [%] does not occur in an encoded
    component. *)
Lemma encode_no_char d s :
  uri_unreserved d = false → d ≠ "%"%char →
  no_char d (encodeURIComponent s) = true.
Proof.
  intros Hd Hpct. induction s as [|c s IH]; [done|]. cbn [encodeURIComponent].
  destruct (uri_unreserved c) eqn:Hc.
  - cbn [no_char]. by rewrite (unreserved_differs c d), IH.
  - destruct (hex_digits_unreserved c) as [Hhi Hlo].
    unfold percent_byte. rewrite !append_cons, append_nil. cbn [no_char].
    rewrite (unreserved_differs _ d Hhi Hd), (unreserved_differs _ d Hlo Hd), IH.
    destruct (Ascii.eqb_spec "%" d) as [<-|]; done.
Qed.

Lemma no_char_app d s t :
  no_char d (s +:+ t) = no_char d s && no_char d t.
Proof.
  induction s as [|c s IH]; [done|]. rewrite append_cons. cbn [no_char].
  by rewrite IH, andb_assoc.
Qed.

Lemma plus_to_space_id s : no_char "+" s = true → plus_to_space s = s.
Proof.
  induction s as [|c s IH]; [done|]. cbn [no_char plus_to_space].
  intros [Hc Hs]%andb_true_iff. apply negb_true_iff in Hc.
  by rewrite Hc, IH.
Qed.

Lemma break_at_absent d s : no_char d s = true → break_at d s = (s, None).
Proof.
  induction s as [|c s IH]; [done|]. cbn [no_char break_at].
  intros [Hc Hs]%andb_true_iff. apply negb_true_iff in Hc.
  by rewrite Hc, IH.
Qed.

Lemma break_at_first d s t :
  no_char d s = true → break_at d (s +:+ String d t) = (s, Some t).
Proof.
  induction s as [|c s IH]; rewrite ?append_cons, ?append_nil;
    cbn [no_char break_at].
  - by rewrite Ascii.eqb_refl.
  - intros [Hc Hs]%andb_true_iff. apply negb_true_iff in Hc.
    by rewrite Hc, IH.
Qed.

Lemma split_on_absent d s : no_char d s = true → split_on d s = [s].
Proof.
  induction s as [|c s IH]; [done|]. cbn [no_char split_on].
  intros [Hc Hs]%andb_true_iff. apply negb_true_iff in Hc.
  by rewrite Hc, IH.
Qed.

Lemma split_on_first d s t :
  no_char d s = true → split_on d (s +:+ String d t) = s :: split_on d t.
Proof.
  induction s as [|c s IH]; rewrite ?append_cons, ?append_nil;
    cbn [no_char split_on].
  - by rewrite Ascii.eqb_refl.
  - intros [Hc Hs]%andb_true_iff. apply negb_true_iff in Hc.
    by rewrite Hc, IH.
Qed.

Lemma query_of_path_query p q :
  path_ok p = true → no_char "#" q = true →
  query_of_href (p +:+ String "?" q) = q.
Proof.
  unfold path_ok, query_of_href. intros [Hq Hh]%andb_true_iff Hfrag.
  rewrite (break_at_absent "#").
  - simpl. by rewrite break_at_first.
  - rewrite no_char_app. cbn [no_char]. by rewrite Hh, Hfrag.
Qed.

Lemma append_assoc s t u : (s +:+ t) +:+ u = s +:+ t +:+ u.
Proof.
  induction s as [|c s IH]; [done|]. rewrite !append_cons. by rewrite IH.
Qed.

(** The query [limit=<encoded limit>&format=html] parses to the two pairs
    it was built from. *)
Lemma parse_limit_format limit :
  parse_query ("limit=" +:+ encodeURIComponent limit +:+ "&format=html")
  = [("limit", limit); ("format", "html")].
Proof.
  pose proof (percent_decode_encode limit) as Hdec.
  assert (no_char "&" (encodeURIComponent limit) = true) as Hamp
    by (by apply encode_no_char).
  assert (no_char "+" (encodeURIComponent limit) = true) as Hplus
    by (by apply encode_no_char).
  set (e := encodeURIComponent limit) in *.
  unfold parse_query. rewrite <- (append_assoc "limit=" e "&format=html").
  change "&format=html" with (String "&" "format=html").
  rewrite split_on_first by (rewrite no_char_app; by rewrite Hamp).
  rewrite (split_on_absent "&" "format=html") by done.
  rewrite filter_cons_True by (by rewrite append_cons).
  rewrite filter_cons_True by done. rewrite filter_nil.
  cbn [fmap list_fmap]. f_equal.
  unfold parse_pair.
  change ("limit=" +:+ e) with ("limit" +:+ String "=" e).
  rewrite break_at_first by done. simpl default.
  by rewrite (plus_to_space_id e), Hdec.
Qed.

End Encoding.

(** ** Clear all *)

Lemma clearBtn_query (p : string) (limit : string) :
  path_ok p = true →
  parse_query
    (query_of_href (p +:+ "?limit=" +:+ encodeURIComponent limit +:+ "&format=html"))
  = [("limit", limit); ("format", "html")].
Proof.
  intros Hp.
  change ("?limit=" +:+ encodeURIComponent limit +:+ "&format=html")
    with (String "?" ("limit=" +:+ encodeURIComponent limit +:+ "&format=html")).
  rewrite query_of_path_query; [apply parse_limit_format|done|].
  rewrite !no_char_app, encode_no_char by done. done.
Qed.

(** C10.  The form-based clear-all handler assigns to
    [window.location.href] the string made of the pathname, [?limit=], the
    URL-encoded limit and [&format=html].  The limit is the value of the
    first input of the form named [limit], and ["100"] when the form has no
    such input.  The query of that target consists of exactly the two
    parameters [limit] and [format=html], whatever the query of the current
    URL was: every other prior parameter is dropped. *)
Theorem clear_all_form_target (loc : URL) (inputs : list Form.input) :
  path_ok (pathname loc) = true →
  ∃ limit target,
    Form.clearBtn_click (pathname loc) inputs = Form.Href target
    ∧ target
      = pathname loc +:+ "?limit=" +:+ encodeURIComponent limit +:+ "&format=html"
    ∧ ((∀ i, i ∈ inputs → ¬ Form.limit_selector i) → limit = "100")
    ∧ (∀ k i, inputs !! k = Some i → Form.limit_selector i →
          (∀ j y, inputs !! j = Some y → j < k → ¬ Form.limit_selector y) →
          limit = Form.value i)
    ∧ parse_query (query_of_href target) = [("limit", limit); ("format", "html")].
Proof.
  intros Hp. unfold Form.clearBtn_click, Form.querySelector.
  destruct (list_find Form.limit_selector inputs) as [[k i]|] eqn:Hfind.
  - exists (Form.value i). eexists. split; [reflexivity|]. split; [done|].
    apply list_find_Some in Hfind as (Hk & Hi & Hfirst).
    split; [|split; [|by apply clearBtn_query]].
    + intros Hnone. destruct (Hnone i); [|done].
      apply list_elem_of_lookup. eauto.
    + intros k' i' Hk' Hi' Hfirst'.
      destruct (Nat.lt_trichotomy k k') as [Hlt|[->|Hlt]].
      * by destruct (Hfirst' k i Hk Hlt).
      * congruence.
      * by destruct (Hfirst k' i' Hk' Hlt).
  - exists "100". eexists. split; [reflexivity|]. split; [done|].
    apply list_find_None in Hfind.
    split; [done|split; [|by apply clearBtn_query]].
    intros k i Hk Hi _. by destruct (Forall_lookup_1 _ _ _ _ Hfind Hk).
Qed.

Lemma clear_all_form_target_witness :
  path_ok (pathname sample_loc) = true
  ∧ ∃ limit target,
      Form.clearBtn_click (pathname sample_loc) sample_inputs = Form.Href target
      ∧ limit = "50"
      ∧ parse_query (query_of_href target) = [("limit", limit); ("format", "html")].
Proof.
  split; [reflexivity|].
  destruct (clear_all_form_target sample_loc sample_inputs eq_refl)
    as (limit & target & Hclick & _ & _ & Hfirst & Hquery).
  exists limit, target. split; [exact Hclick|]. split; [|exact Hquery].
  apply (Hfirst 0 _ eq_refl).
  - by split.
  - intros j y _ Hj. lia.
Defined.

(** C8, as stated, fails: on the sample page, whose form mirrors the query,
    the URL-based clear-all leaves [format=html] alone, while the form-based
    one leads to [limit=50&format=html]. *)
Lemma clear_all_handlers_differ :
  limit_mirrored sample_loc sample_inputs
  ∧ url_clear_all_query sample_loc = [("format", "html")]
  ∧ form_clear_all_query sample_loc sample_inputs
    = [("limit", "50"); ("format", "html")]
  ∧ ¬ clear_all_equivalent.
Proof.
  assert (limit_mirrored sample_loc sample_inputs) as Hmirror by done.
  assert (url_clear_all_query sample_loc = [("format", "html")]) as Hurl
    by (by vm_compute).
  assert (form_clear_all_query sample_loc sample_inputs
          = [("limit", "50"); ("format", "html")]) as Hform
    by (by vm_compute).
  repeat split; try done.
  intros Hclaim. specialize (Hclaim sample_loc sample_inputs eq_refl Hmirror).
  rewrite Hurl, Hform in Hclaim. done.
Qed.

Lemma sp_get_None (name : string) (l : list (string * string)) :
  sp_get name l = None ↔ ∀ p, p ∈ l → p.1 ≠ name.
Proof.
  unfold sp_get. destruct (list_find _ l) as [[k p]|] eqn:Hfind; simpl.
  - split; [done|]. intros Hno.
    apply list_find_Some in Hfind as (Hk & Hp & _).
    destruct (Hno p); [|done]. apply list_elem_of_lookup. eauto.
  - split; [|done]. intros _ p Hp.
    apply list_find_None in Hfind.
    apply list_elem_of_lookup in Hp as [k Hk].
    apply (Forall_lookup_1 _ _ _ _ Hfind Hk).
Qed.

(** C8, amended.  The two clear-all handlers agree on removing the filters
    and sorts, and on nothing else.  The URL-based handler navigates to the
    current URL without the parameters whose key starts with [f_] or [s_]
    or is [limit], every other parameter kept; the form-based handler
    navigates to a URL whose query is exactly [limit] and [format=html],
    the limit being the value of the first input of the form named [limit],
    and 100 when the form has none.  Neither query holds a key that starts
    with [f_] or [s_]; only the form-based one holds [limit], so the two
    queries are never the same. *)
Theorem clear_all_results_differ (loc : URL) (inputs : list Form.input) :
  path_ok (pathname loc) = true →
  let uq := url_clear_all_query loc in
  let fq := form_clear_all_query loc inputs in
  uq = filter (λ p, startsWith p.1 "f_" || startsWith p.1 "s_"
                    || (p.1 =? "limit")%string = false) (searchParams loc)
  ∧ (∃ limit,
       fq = [("limit", limit); ("format", "html")]
       ∧ ((∀ i, i ∈ inputs → ¬ Form.limit_selector i) → limit = "100")
       ∧ (∀ k i, inputs !! k = Some i → Form.limit_selector i →
            (∀ j y, inputs !! j = Some y → j < k → ¬ Form.limit_selector y) →
            limit = Form.value i))
  ∧ (∀ k v, (k, v) ∈ uq ∨ (k, v) ∈ fq →
       startsWith k "f_" = false ∧ startsWith k "s_" = false)
  ∧ sp_get "limit" uq = None
  ∧ is_Some (sp_get "limit" fq)
  ∧ uq ≠ fq.
Proof.
  intros Hp uq fq.
  assert (uq = filter (λ p, startsWith p.1 "f_" || startsWith p.1 "s_"
                            || (p.1 =? "limit")%string = false)
                      (searchParams loc)) as Huq.
  { unfold uq, url_clear_all_query, Url.clearAll. simpl.
    apply (delete_own_keys
             (λ k, startsWith k "f_" || startsWith k "s_" || (k =? "limit")%string)). }
  assert (∃ limit,
            fq = [("limit", limit); ("format", "html")]
            ∧ ((∀ i, i ∈ inputs → ¬ Form.limit_selector i) → limit = "100")
            ∧ (∀ k i, inputs !! k = Some i → Form.limit_selector i →
                 (∀ j y, inputs !! j = Some y → j < k →
                         ¬ Form.limit_selector y) →
                 limit = Form.value i)) as Hform.
  { unfold fq, form_clear_all_query, Form.clearBtn_click, Form.querySelector.
    destruct (list_find Form.limit_selector inputs) as [[k i]|] eqn:Hfind.
    - exists (Form.value i). split; [by apply clearBtn_query|].
      apply list_find_Some in Hfind as (Hk & Hi & Hfirst). split.
      + intros Hnone. destruct (Hnone i); [|done].
        apply list_elem_of_lookup. eauto.
      + intros k' i' Hk' Hi' Hfirst'.
        destruct (Nat.lt_trichotomy k k') as [Hlt|[->|Hlt]].
        * by destruct (Hfirst' k i Hk Hlt).
        * congruence.
        * by destruct (Hfirst k' i' Hk' Hlt).
    - exists "100". split; [by apply clearBtn_query|]. split; [done|].
      apply list_find_None in Hfind.
      intros k i Hk Hi _. by destruct (Forall_lookup_1 _ _ _ _ Hfind Hk). }
  destruct Hform as (limit & Hfq & Hdefault & Hfirst).
  assert (sp_get "limit" uq = None) as Hnone.
  { apply sp_get_None. intros p Hin. rewrite Huq in Hin.
    apply list_elem_of_filter in Hin as [Hin _].
    apply orb_false_iff in Hin as [_ Hin]. by apply String.eqb_neq in Hin. }
  split; [done|]. split; [by exists limit|]. split; [|split; [done|split]].
  - intros k v [Hin|Hin].
    + rewrite Huq in Hin. apply list_elem_of_filter in Hin as [Hin _]. simpl in Hin.
      apply orb_false_iff in Hin as [Hin _].
      by apply orb_false_iff in Hin.
    + rewrite Hfq in Hin.
      apply elem_of_cons in Hin as [[= -> ->]|Hin]; [done|].
      apply elem_of_cons in Hin as [[= -> ->]|Hin]; [done|].
      by apply elem_of_nil in Hin.
  - rewrite Hfq. by eexists.
  - intros Heq. rewrite Heq, Hfq in Hnone. done.
Qed.

Lemma clear_all_results_differ_witness :
  path_ok (pathname sample_loc) = true
  ∧ sp_get "limit" (url_clear_all_query sample_loc) = None
  ∧ form_clear_all_query sample_loc sample_inputs
    = [("limit", "50"); ("format", "html")].
Proof.
  split; [reflexivity|].
  destruct (clear_all_results_differ sample_loc sample_inputs eq_refl)
    as (_ & (limit & Hfq & _ & Hfirst) & _ & Hnone & _ & _).
  split; [exact Hnone|].
  rewrite Hfq. do 2 f_equal. apply (Hfirst 0 _ eq_refl).
  - by split.
  - intros j y _ Hj. lia.
Defined.

(** * Further properties of the scripts *)

(** ** [setParam] and the query of the URL-based script *)

Section UrlFurther.

Implicit Types (l : list (string * string)) (name key : string).

Lemma sp_delete_idemp name l : sp_delete name (sp_delete name l) = sp_delete name l.
Proof.
  unfold sp_delete. rewrite list_filter_filter. apply list_filter_iff. tauto.
Qed.

Lemma sp_delete_comm name key l :
  sp_delete name (sp_delete key l) = sp_delete key (sp_delete name l).
Proof.
  unfold sp_delete. rewrite !list_filter_filter. apply list_filter_iff. tauto.
Qed.

Lemma sp_delete_cons name (p : string * string) l :
  sp_delete name (p :: l)
  = if decide (p.1 = name) then sp_delete name l else p :: sp_delete name l.
Proof.
  unfold sp_delete. rewrite filter_cons.
  destruct (decide (p.1 = name)).
  - by rewrite decide_False by tauto.
  - by rewrite decide_True.
Qed.

(** Deleting [name] after setting it leaves what deleting alone leaves: the
    pairs of the other names keep their place. *)
Lemma sp_delete_set name value l :
  sp_delete name (sp_set name value l) = sp_delete name l.
Proof.
  induction l as [|p l IH]; simpl.
  - rewrite sp_delete_cons. by rewrite decide_True.
  - rewrite (sp_delete_cons name p l). destruct (decide (p.1 = name)).
    + rewrite sp_delete_cons. simpl. rewrite decide_True by done.
      apply sp_delete_idemp.
    + rewrite sp_delete_cons. rewrite decide_False by done. by rewrite IH.
Qed.

Lemma sp_get_cons name (p : string * string) l :
  sp_get name (p :: l) = if decide (p.1 = name) then Some p.2 else sp_get name l.
Proof.
  unfold sp_get. cbn [list_find]. destruct (decide (p.1 = name)); [done|].
  by destruct (list_find _ l) as [[k q]|].
Qed.

Lemma sp_get_set name value l : sp_get name (sp_set name value l) = Some value.
Proof.
  induction l as [|p l IH]; simpl.
  - rewrite sp_get_cons. by rewrite decide_True.
  - destruct (decide (p.1 = name)).
    + rewrite sp_get_cons. by rewrite decide_True.
    + rewrite sp_get_cons. by rewrite decide_False.
Qed.

Lemma sp_get_delete name l : sp_get name (sp_delete name l) = None.
Proof.
  apply sp_get_None. intros p Hp.
  by apply list_elem_of_filter in Hp as [Hp _].
Qed.

Lemma sp_set_not_delete name value l : sp_set name value l ≠ sp_delete name l.
Proof.
  intros Heq. pose proof (sp_get_set name value l) as Hget.
  rewrite Heq, sp_get_delete in Hget. done.
Qed.

End UrlFurther.

(** X1.  [setParam(name, value)] navigates to the current URL (origin, path
    and fragment kept) with the query edited at [name] only.  With a
    non-empty value, looking [name] up gives that value and exactly one
    pair of that name is left; with the empty value no pair of that name is
    left.  In both cases the pairs of every other name are as before, in
    the same order. *)
Theorem setParam_sets_or_deletes (loc : URL) (name value : string) :
  ∃ sp,
    Url.setParam loc name value = Url.Navigated (with_searchParams loc sp)
    ∧ sp_get name sp = (if decide (value = "") then None else Some value)
    ∧ filter (λ p, p.1 = name) sp
      = (if decide (value = "") then [] else [(name, value)])
    ∧ sp_delete name sp = sp_delete name (searchParams loc).
Proof.
  unfold Url.setParam. destruct (String.eqb_spec value "") as [->|Hne].
  - eexists. split; [reflexivity|]. rewrite !decide_True by done.
    split; [apply sp_get_delete|]. split; [|apply sp_delete_idemp].
    apply filter_none. intros p Hp.
    apply list_elem_of_filter in Hp as [Hp _]. tauto.
  - eexists. split; [reflexivity|]. rewrite !decide_False by done.
    split; [apply sp_get_set|]. split; [apply sp_set_own|apply sp_delete_set].
Qed.

(** X2.  The sort click of the URL-based script does what
    [setParam("s_<col>", next)] would do exactly when the column is unsorted
    or ascending.  From any other state the successor is the empty string:
    the click then keeps a pair [s_<col>] with the empty value in the
    query, where [setParam] would have deleted the parameter.  After a sort
    click the query always holds [s_<col>], with the successor as its
    value. *)
Theorem th_click_vs_setParam (loc : URL) (t : Url.th) :
  let key := "s_" +:+ Url.data_col t in
  let current := or_empty (Url.data_sort t) in
  (Url.th_click loc t true = Url.setParam loc key (next current)
   ↔ current = "" ∨ current = "asc")
  ∧ ∃ sp,
      Url.th_click loc t true = Url.Navigated (with_searchParams loc sp)
      ∧ sp_get key sp = Some (next current).
Proof.
  intros key current. split.
  - unfold Url.th_click, Url.setParam. cbn [negb]. fold key current.
    unfold next.
    destruct (String.eqb_spec current "") as [->|Hne]; [by split; auto|].
    destruct (String.eqb_spec current "asc") as [->|Hna]; [by split; auto|].
    cbn [String.eqb]. split; [|by intros [?|?]].
    intros [= Heq]. by apply sp_set_not_delete in Heq.
  - eexists. split; [reflexivity|]. apply sp_get_set.
Qed.

(** X3.  No handler of the URL-based script leaves the page or adds
    anything but the clicked column's sort: a handler either returns
    without effect or navigates to the current URL with the same origin,
    path and fragment.  After a click on a clear button or on a chip the
    query is a sublist of the old one (pairs are only deleted, never added,
    changed or reordered); after a sort click everything but the pairs named
    [s_<col>] is as before, in the same order. *)
Theorem url_handlers_only_edit_query (qform : bool) (loc : URL) (ev : Url.click) :
  Url.on_click qform loc ev = Url.Returned
  ∨ ∃ url,
      Url.on_click qform loc ev = Url.Navigated url
      ∧ origin url = origin loc ∧ pathname url = pathname loc
      ∧ hash url = hash loc
      ∧ match ev with
        | Url.Th t _ =>
            sp_delete ("s_" +:+ Url.data_col t) (searchParams url)
            = sp_delete ("s_" +:+ Url.data_col t) (searchParams loc)
        | _ => sublist (searchParams url) (searchParams loc)
        end.
Proof.
  unfold Url.on_click. destruct qform; cbn [negb]; [|by left].
  destruct ev as [| |t [|]|[|] [c|]]; try (by left); right.
  - eexists. split; [reflexivity|]. repeat split. cbn [searchParams with_searchParams].
    rewrite (delete_own_keys
               (λ k, startsWith k "f_" || startsWith k "s_" || (k =? "limit")%string)).
    apply sublist_filter.
  - eexists. split; [reflexivity|]. repeat split. cbn [searchParams with_searchParams].
    rewrite (delete_own_keys (λ k, startsWith k "s_")). apply sublist_filter.
  - eexists. split; [reflexivity|]. repeat split. apply sp_delete_set.
  - rewrite chips_click_params. eexists. split; [reflexivity|].
    repeat split. apply sublist_filter.
Qed.

(** ** Clicks of the URL-based script in sequence *)

Section UrlSequences.

Implicit Types (l : list (string * string)) (Q : string → bool).

Lemma with_searchParams_twice (loc : URL) l l' :
  with_searchParams (with_searchParams loc l) l' = with_searchParams loc l'.
Proof. reflexivity. Qed.

Lemma clearAll_filter (loc : URL) :
  Url.clearAll loc
  = Url.Navigated
      (with_searchParams loc
         (filter (λ p, startsWith p.1 "f_" || startsWith p.1 "s_"
                       || (p.1 =? "limit")%string = false) (searchParams loc))).
Proof.
  unfold Url.clearAll.
  by rewrite (delete_own_keys
                (λ k, startsWith k "f_" || startsWith k "s_" || (k =? "limit")%string)).
Qed.

Lemma clearSorts_filter (loc : URL) :
  Url.clearSorts loc
  = Url.Navigated
      (with_searchParams loc
         (filter (λ p, startsWith p.1 "s_" = false) (searchParams loc))).
Proof.
  unfold Url.clearSorts. by rewrite (delete_own_keys (λ k, startsWith k "s_")).
Qed.

(** Filtering twice, the second filter asking no more than the first. *)
Lemma filter_absorb Q Q' l :
  (∀ k, Q k = false → Q' k = false) →
  filter (λ p, Q' p.1 = false) (filter (λ p, Q p.1 = false) l)
  = filter (λ p, Q p.1 = false) l.
Proof.
  intros HQ. rewrite list_filter_filter. apply list_filter_iff.
  intros p. split; [tauto|]. auto.
Qed.

Lemma filter_absorbed Q Q' l :
  (∀ k, Q k = false → Q' k = false) →
  filter (λ p, Q p.1 = false) (filter (λ p, Q' p.1 = false) l)
  = filter (λ p, Q p.1 = false) l.
Proof.
  intros HQ. rewrite list_filter_filter. apply list_filter_iff.
  intros p. split; [tauto|]. auto.
Qed.

(** A filter that drops [key] does not see what [set(key, _)] did. *)
Lemma filter_after_set Q (key value : string) l :
  Q key = true →
  filter (λ p, Q p.1 = false) (sp_set key value l)
  = filter (λ p, Q p.1 = false) l.
Proof.
  intros Hkey. induction l as [|p l IH]; simpl.
  - rewrite filter_cons. simpl. rewrite Hkey. by rewrite decide_False.
  - destruct (decide (p.1 = key)) as [Hp|Hp].
    + rewrite !filter_cons. simpl. rewrite Hp, Hkey.
      rewrite !decide_False by done.
      unfold sp_delete. rewrite list_filter_filter. apply list_filter_iff.
      intros q. split; [tauto|]. intros Hq. split; [done|]. congruence.
    + rewrite !filter_cons. case_decide; by rewrite IH.
Qed.

Lemma s_key_starts (col : string) : startsWith ("s_" +:+ col) "s_" = true.
Proof. by destruct col. Qed.

End UrlSequences.

(** X4.  The clear buttons of the URL-based script are idempotent, and
    clear-all absorbs clear-sorts: clicking clear-sorts on the page
    clear-sorts led to, or clear-all on the page clear-all led to, leads to
    the same URL again; clear-all after clear-sorts and clear-sorts after
    clear-all both lead to the URL of a single clear-all. *)
Theorem clear_buttons_compose (loc : URL) :
  and_then (Url.clearSorts loc) Url.clearSorts = Url.clearSorts loc
  ∧ and_then (Url.clearAll loc) Url.clearAll = Url.clearAll loc
  ∧ and_then (Url.clearSorts loc) Url.clearAll = Url.clearAll loc
  ∧ and_then (Url.clearAll loc) Url.clearSorts = Url.clearAll loc.
Proof.
  rewrite !clearAll_filter, !clearSorts_filter. cbn [and_then].
  rewrite !clearAll_filter, !clearSorts_filter.
  cbn [searchParams with_searchParams].
  assert (∀ k, startsWith k "f_" || startsWith k "s_" || (k =? "limit")%string
               = false → startsWith k "s_" = false) as Himp.
  { intros k [[_ ?]%orb_false_iff _]%orb_false_iff. done. }
  pose (QA := λ k : string,
          startsWith k "f_" || startsWith k "s_" || (k =? "limit")%string).
  pose (QS := λ k : string, startsWith k "s_").
  repeat split; do 2 f_equal.
  - by apply (filter_absorb QS QS).
  - by apply (filter_absorb QA QA).
  - by apply (filter_absorbed QA QS).
  - by apply (filter_absorb QA QS).
Qed.

(** X5.  In the URL-based script chip removals commute and are idempotent:
    removing two chips in either order leads to the same URL, and removing
    the same chip again changes nothing more. *)
Theorem chip_removals_commute (loc : URL) (c1 c2 : Url.chip) :
  and_then (Url.chips_click loc true (Some c1))
    (λ url, Url.chips_click url true (Some c2))
  = and_then (Url.chips_click loc true (Some c2))
      (λ url, Url.chips_click url true (Some c1))
  ∧ and_then (Url.chips_click loc true (Some c1))
      (λ url, Url.chips_click url true (Some c1))
    = Url.chips_click loc true (Some c1).
Proof.
  rewrite !chips_click_params. cbn [and_then]. rewrite !chips_click_params.
  cbn [searchParams with_searchParams]. rewrite !list_filter_filter.
  split; do 2 f_equal; apply list_filter_iff; tauto.
Qed.

(** X6.  In the URL-based script a sort click is undone by the column's
    sort chip and swallowed by the clear buttons: removing the sort chip of
    the column, clear-sorts or clear-all, clicked on the page the sort click
    led to, lead to the URL they would have led to without the sort
    click. *)
Theorem sort_click_then_clear (loc : URL) (t : Url.th) :
  let chip := Url.mk_chip (Some "sort") (Some (Url.data_col t)) in
  and_then (Url.th_click loc t true) (λ url, Url.chips_click url true (Some chip))
  = Url.chips_click loc true (Some chip)
  ∧ and_then (Url.th_click loc t true) Url.clearSorts = Url.clearSorts loc
  ∧ and_then (Url.th_click loc t true) Url.clearAll = Url.clearAll loc.
Proof.
  intros chip. unfold Url.th_click. cbn [negb and_then].
  rewrite !chips_click_params, !clearAll_filter, !clearSorts_filter.
  cbn [searchParams with_searchParams].
  repeat split; do 2 f_equal.
  - assert (∀ l, filter (λ p, chip_param chip ≠ Some p.1) l
                 = sp_delete ("s_" +:+ Url.data_col t) l) as Hdel.
    { intros l. apply list_filter_iff. intros p.
      assert (chip_param chip = Some ("s_" +:+ Url.data_col t)) as ->
        by (unfold chip_param, chip; cbn [Url.data_kind Url.chip_col];
            rewrite decide_False by done; by rewrite decide_True).
      split; congruence. }
    rewrite !Hdel. apply sp_delete_set.
  - apply (filter_after_set (λ k, startsWith k "s_")). apply s_key_starts.
  - apply (filter_after_set
             (λ k, startsWith k "f_" || startsWith k "s_" || (k =? "limit")%string)).
    by rewrite s_key_starts, orb_true_r.
Qed.

(** ** The form-based script: what a click can change *)

Section FormFurther.

Implicit Types (inputs : list Form.input) (h : Form.input) (v : string).

Lemma written_refl v h : written v h h.
Proof. unfold written, same_but_value. tauto. Qed.

Lemma written_set_value v h : written v h (Form.set_value v h).
Proof. unfold written, same_but_value. simpl. tauto. Qed.

Lemma assign_value_written (sel : Form.input → Prop) `{!∀ i, Decision (sel i)}
    inputs v :
  Forall2 (written v) inputs
    (Form.assign_value (Form.querySelector sel inputs) v inputs).
Proof.
  apply Forall2_same_length_lookup_2; [by rewrite assign_value_length|].
  intros i h h' Hi Hi'. rewrite (assign_value_lookup sel inputs v i h Hi) in Hi'.
  injection Hi' as <-. case_decide; [apply written_set_value|apply written_refl].
Qed.

Lemma Forall2_written_refl v inputs : Forall2 (written v) inputs inputs.
Proof. apply Forall_Forall2_diag, Forall_forall. intros h _. apply written_refl. Qed.

(** The chip handler has one of three shapes, whatever the inputs are: it
    ignores the click, it submits the form as it is, or it submits after
    blanking the first input matched by a selector that does not look at
    values. *)
Lemma chip_x_click_shape (c : Form.chip) :
  Form.css_plain (or_empty (Form.chip_col c)) = true →
  (∀ inputs, Form.chip_x_click inputs c = Some (inputs, Form.NoSignal))
  ∨ (∀ inputs, Form.chip_x_click inputs c = Some (inputs, Form.Submit))
  ∨ ∃ (sel : Form.input → Prop) (Hdec : ∀ i, Decision (sel i)),
      (∀ v h, sel (Form.set_value v h) ↔ sel h)
      ∧ ∀ inputs,
          Form.chip_x_click inputs c
          = Some (Form.assign_value (Form.querySelector sel inputs) "" inputs,
                  Form.Submit).
Proof.
  intros Hplain. unfold Form.chip_x_click.
  destruct c as [[col|] [kind|]]; simpl in *;
    try (left; intros inputs; by rewrite ?orb_true_r).
  destruct (String.eqb_spec col "") as [->|Hcol]; simpl; [by left|].
  destruct (String.eqb_spec kind "") as [->|Hkind]; simpl; [by left|].
  rewrite Hplain.
  destruct (String.eqb_spec kind "filter") as [->|Hnf].
  { right. right. exists (Form.filter_selector col), _. by split. }
  destruct (String.eqb_spec kind "sort") as [->|Hns].
  { right. right. exists (Form.sort_selector col), _. by split. }
  right. by left.
Qed.

(** Blanking the first match of a selector that does not look at values
    finds the same input when run again. *)
Lemma assign_value_again (sel : Form.input → Prop) `{!∀ i, Decision (sel i)}
    inputs v :
  (∀ v h, sel (Form.set_value v h) ↔ sel h) →
  Form.assign_value
    (Form.querySelector sel
       (Form.assign_value (Form.querySelector sel inputs) v inputs))
    v (Form.assign_value (Form.querySelector sel inputs) v inputs)
  = Form.assign_value (Form.querySelector sel inputs) v inputs.
Proof.
  intros Hsel. unfold Form.querySelector.
  destruct (list_find sel inputs) as [[k h]|] eqn:Hfind; simpl.
  - pose proof Hfind as (Hk & Hh & Hfirst)%list_find_Some.
    assert (list_find sel (<[k:=Form.set_value v h]> inputs)
            = Some (k, Form.set_value v h)) as ->.
    { apply list_find_Some. split; [|split].
      - apply list_lookup_insert_eq. by eapply lookup_lt_Some.
      - by apply Hsel.
      - intros j y Hj Hlt. rewrite list_lookup_insert_ne in Hj by lia. eauto. }
    simpl. by rewrite list_insert_insert_eq.
  - by rewrite Hfind.
Qed.

End FormFurther.

(** X7.  The form-based script only ever writes values.  Whatever the click
    (with a selector the model covers), the handler leaves the same inputs in
    the same order; each keeps its name, its type, its place in the form and
    in the table, and its value is either untouched or one of the empty
    string, [asc] and [desc]. *)
Theorem form_handlers_write_values_only (qform : bool) (path : string)
    (inputs : list Form.input) (ev : Form.click) :
  form_plain ev →
  ∃ inputs' sig,
    Form.on_click qform path inputs ev = Some (inputs', sig)
    ∧ Forall2
        (λ h h', same_but_value h h'
                 ∧ (Form.value h' = Form.value h
                    ∨ Form.value h' ∈ [""; "asc"; "desc"]))
        inputs inputs'.
Proof.
  intros Hev.
  assert (∀ v inputs', v ∈ [""; "asc"; "desc"] →
            Forall2 (written v) inputs inputs' →
            Forall2
              (λ h h', same_but_value h h'
                       ∧ (Form.value h' = Form.value h
                          ∨ Form.value h' ∈ [""; "asc"; "desc"]))
              inputs inputs') as Hweaken.
  { intros v inputs' Hv. apply Forall2_impl.
    intros h h' [Hsame [Hval| ->]]; split; auto. }
  assert ("" ∈ [""; "asc"; "desc"]) as Hblank by (by left).
  unfold Form.on_click. destruct qform; cbn [negb].
  2:{ eexists _, _. split; [reflexivity|].
      apply (Hweaken ""), Forall2_written_refl; done. }
  destruct ev as [| |t|c]; cbn [form_plain] in Hev.
  - eexists _, _. split; [reflexivity|].
    apply (Hweaken ""), Forall2_written_refl; done.
  - eexists _, _. split; [reflexivity|]. apply (Hweaken ""); [done|].
    apply Forall2_fmap_r, Forall_Forall2_diag, Forall_forall. intros h _.
    simpl. destruct (Form.sorts_selector h);
      [apply written_set_value|apply written_refl].
  - unfold Form.sort_click. rewrite Hev. eexists _, _. split; [reflexivity|].
    apply (Hweaken (next (or_empty (Form.data_sort t)))).
    + destruct (next_in_cycle (or_empty (Form.data_sort t))) as [->|[->| ->]].
      * by left.
      * right. by left.
      * right. right. by left.
    + apply assign_value_written.
  - destruct (chip_x_click_shape c Hev) as [Hc|[Hc|(sel & Hdec & _ & Hc)]];
      rewrite Hc; eexists _, _; (split; [reflexivity|]); apply (Hweaken "");
      try done; try apply Forall2_written_refl.
    apply assign_value_written.
Qed.

Lemma form_handlers_write_values_only_witness :
  form_plain (Form.Sort sample_th)
  ∧ ∃ inputs' sig,
      Form.on_click true "/chain" sample_inputs (Form.Sort sample_th)
      = Some (inputs', sig)
      ∧ length inputs' = 3.
Proof.
  split; [reflexivity|].
  destruct (form_handlers_write_values_only true "/chain" sample_inputs
              (Form.Sort sample_th) eq_refl)
    as (inputs' & sig & Hclick & Hrel).
  exists inputs', sig. split; [exact Hclick|].
  apply Forall2_length in Hrel. symmetry. exact Hrel.
Defined.

(** X8.  In the form-based script clear-sorts swallows a sort click: for a
    column whose [data-col] is free of double quote, backslash and line
    break, and when the inputs inside the clicked header cell belong to the
    form, clicking clear-sorts after the sort click leaves the inputs
    exactly as clear-sorts alone would have left them. *)
Theorem sort_click_then_clear_sorts (inputs : list Form.input) (t : Form.th) :
  Form.css_plain (Form.data_col t) = true →
  (∀ h, h ∈ inputs → Form.in_th h = Some (Form.th_id t) →
        Form.in_form h = true) →
  ∃ inputs',
    Form.sort_click inputs t = Some (inputs', Form.Submit)
    ∧ Form.clearSortsBtn_click inputs' = Form.clearSortsBtn_click inputs.
Proof.
  intros Hplain Hform. unfold Form.sort_click. rewrite Hplain.
  eexists. split; [reflexivity|]. unfold Form.clearSortsBtn_click. f_equal.
  apply list_eq. intros i. rewrite !list_lookup_fmap.
  destruct (inputs !! i) as [h|] eqn:Hi.
  - rewrite (assign_value_lookup _ inputs _ i h Hi). simpl.
    case_decide as Hfound; [|done].
    unfold Form.querySelector in Hfound.
    destruct (list_find _ inputs) as [[k h']|] eqn:Hfind; [|done].
    injection Hfound as ->.
    apply list_find_Some in Hfind as (Hk & (Hth & Hhid & Hname) & _).
    rewrite Hi in Hk. injection Hk as <-.
    assert (Form.sorts_selector h = true) as Hsel.
    { unfold Form.sorts_selector. rewrite Hhid, Hname, s_key_starts.
      rewrite (Hform h); [done| |done]. apply list_elem_of_lookup. eauto. }
    assert (Form.sorts_selector
              (Form.set_value (next (or_empty (Form.data_sort t))) h) = true)
      as -> by exact Hsel.
    by rewrite Hsel.
  - apply lookup_ge_None in Hi. rewrite lookup_ge_None_2; [done|].
    by rewrite assign_value_length.
Qed.

Lemma sort_click_then_clear_sorts_witness :
  Form.css_plain (Form.data_col sample_th) = true
  ∧ ∃ inputs',
      Form.sort_click sample_inputs sample_th = Some (inputs', Form.Submit)
      ∧ Form.clearSortsBtn_click inputs'
        = Form.clearSortsBtn_click sample_inputs.
Proof.
  split; [reflexivity|].
  apply (sort_click_then_clear_sorts sample_inputs sample_th eq_refl).
  intros h Hh _. unfold sample_inputs in Hh.
  repeat (apply elem_of_cons in Hh as [->|Hh]; [reflexivity|]).
  by apply elem_of_nil in Hh.
Defined.

(** X9.  The clearing handlers of the form-based script are idempotent:
    clicking clear-sorts, or the remove control of the same chip (its
    [data-col] free of double quote, backslash and line break), a second
    time on the inputs the first click left changes nothing more and ends
    the same way. *)
Theorem form_clears_idempotent (inputs : list Form.input) (c : Form.chip) :
  Form.css_plain (or_empty (Form.chip_col c)) = true →
  Form.clearSortsBtn_click (Form.clearSortsBtn_click inputs).1
  = Form.clearSortsBtn_click inputs
  ∧ ∃ inputs' sig,
      Form.chip_x_click inputs c = Some (inputs', sig)
      ∧ Form.chip_x_click inputs' c = Some (inputs', sig).
Proof.
  intros Hplain. split.
  - unfold Form.clearSortsBtn_click. cbn [fst]. f_equal.
    rewrite <- list_fmap_compose. apply list_fmap_ext. intros i h _. simpl.
    destruct (Form.sorts_selector h) eqn:Hsel; [|by rewrite Hsel].
    assert (Form.sorts_selector (Form.set_value "" h) = true) as -> by exact Hsel.
    done.
  - destruct (chip_x_click_shape c Hplain) as [Hc|[Hc|(sel & Hdec & Hsel & Hc)]].
    + eexists _, _. by rewrite !Hc.
    + eexists _, _. by rewrite !Hc.
    + eexists _, _. split; [apply Hc|]. rewrite Hc.
      by rewrite (assign_value_again sel inputs "" Hsel).
Qed.

Lemma form_clears_idempotent_witness :
  Form.css_plain "symbol" = true
  ∧ ∃ inputs' sig,
      Form.chip_x_click sample_inputs
        (Form.mk_chip (Some "symbol") (Some "filter")) = Some (inputs', sig)
      ∧ Form.chip_x_click inputs'
          (Form.mk_chip (Some "symbol") (Some "filter")) = Some (inputs', sig).
Proof.
  split; [reflexivity|].
  exact (proj2 (form_clears_idempotent sample_inputs
                  (Form.mk_chip (Some "symbol") (Some "filter")) eq_refl)).
Defined.

(** ** Sorting on several columns *)

Lemma sp_get_delete_other (name key : string) (l : list (string * string)) :
  key ≠ name → sp_get key (sp_delete name l) = sp_get key l.
Proof.
  intros Hne. induction l as [|p l IH]; [done|].
  rewrite sp_delete_cons, (sp_get_cons key p l).
  destruct (decide (p.1 = name)) as [Hp|Hp].
  - rewrite IH. by rewrite decide_False by congruence.
  - rewrite sp_get_cons. by rewrite IH.
Qed.

Lemma sp_get_set_other (name value key : string) (l : list (string * string)) :
  key ≠ name → sp_get key (sp_set name value l) = sp_get key l.
Proof.
  intros Hne. induction l as [|p l IH]; simpl.
  - rewrite sp_get_cons. by rewrite decide_False by done.
  - rewrite (sp_get_cons key p l). destruct (decide (p.1 = name)) as [Hp|Hp].
    + rewrite sp_get_cons. simpl. rewrite !decide_False by congruence.
      by apply sp_get_delete_other.
    + rewrite sp_get_cons. by rewrite IH.
Qed.

Lemma s_key_inj (a b : string) : "s_" +:+ a = "s_" +:+ b → a = b.
Proof. rewrite !append_cons, !append_nil. by intros [= ?]. Qed.

(** X10.  In the URL-based script sort clicks on different columns add up:
    after a sort click on one column and then, on the page it led to, a sort
    click on another column, the query holds the successor written by each
    click under its own [s_<col>]; the second click does not disturb the
    first column's sort. *)
Theorem sort_clicks_on_two_columns (loc : URL) (t1 t2 : Url.th) :
  Url.data_col t1 ≠ Url.data_col t2 →
  ∃ sp,
    and_then (Url.th_click loc t1 true) (λ url, Url.th_click url t2 true)
    = Url.Navigated (with_searchParams loc sp)
    ∧ sp_get ("s_" +:+ Url.data_col t1) sp
      = Some (next (or_empty (Url.data_sort t1)))
    ∧ sp_get ("s_" +:+ Url.data_col t2) sp
      = Some (next (or_empty (Url.data_sort t2))).
Proof.
  intros Hcols. unfold Url.th_click. cbn [negb and_then].
  eexists. split; [reflexivity|]. split.
  - rewrite sp_get_set_other; [apply sp_get_set|].
    intros Heq. by apply s_key_inj in Heq.
  - apply sp_get_set.
Qed.

Lemma sort_clicks_on_two_columns_witness :
  "strike" ≠ "bid"
  ∧ ∃ sp,
      and_then (Url.th_click sample_loc (Url.mk_th "strike" (Some "asc")) true)
        (λ url, Url.th_click url (Url.mk_th "bid" None) true)
      = Url.Navigated (with_searchParams sample_loc sp)
      ∧ sp_get "s_strike" sp = Some "desc"
      ∧ sp_get "s_bid" sp = Some "asc".
Proof.
  split; [done|].
  exact (sort_clicks_on_two_columns sample_loc
           (Url.mk_th "strike" (Some "asc")) (Url.mk_th "bid" None)
           ltac:(done)).
Defined.
